(** * The documentation crawler of [scripts/create_knowledge_base.py]

    A shallow embedding of the crawler (sitemap discovery, page scraping,
    optional translation, the breadth-first crawl loop and its two callers)
    and the properties its specification states about it.

    Python exceptions are values of [exn]; code that can raise lives in the
    monad [M], which threads the process state (the outside world, the
    module global [translate_client] and a record of the calls of
    [requests.get] the script has made) and either returns or raises.  The libraries the script
    calls ([requests], [urllib.parse], [bs4], [xml.etree], the translation
    client) are the fields of the class [Platform]. *)

From Stdlib Require Import Ascii String.
From stdpp Require Import base option list sets gmap strings.

Open Scope string_scope.
Open Scope list_scope.

(** ** Exceptions and results *)

Inductive exn : Set :=
| RequestException   (* requests.RequestException and its subclasses *)
| ParseError         (* xml.etree.ElementTree.ParseError *)
| ValueError
| IndexError
| OtherException.    (* any other subclass of Exception *)

#[global] Instance exn_eq_dec : EqDecision exn.
Proof. solve_decision. Defined.

Inductive result (A : Type) : Type :=
| Ok (a : A)
| Raise (e : exn).
Arguments Ok {A} a.
Arguments Raise {A} e.

(** ** Data model *)

(** [Document(text=page_text, extra_info={"url": url})] *)
Record Document : Set := { text : string; url : string }.

(** Why a page was requested: the sitemap lookup, the content fetch of
    [process_url], or the second fetch of the crawl loop that harvests
    links. *)
Inductive purpose : Set := Sitemap | Content | Links.

#[global] Instance purpose_eq_dec : EqDecision purpose.
Proof. solve_decision. Defined.

Record request : Set := { why : purpose; target : string }.

(** ** The libraries the script runs on *)

Class Platform : Type := {
  World : Type;          (* everything outside the process *)
  Body : Type;           (* [response.content] *)
  Client : Type;         (* [translate.Client] *)
  (* [response = requests.get(url); response.raise_for_status()], giving
     [response.content]: the three call sites use exactly this sequence *)
  requests_get : string → World → result Body * World;
  (* [urljoin(base, url)]; [None] when it raises ValueError *)
  urljoin : string → string → option string;
  (* [urlparse(url).netloc]; [None] when urlparse raises ValueError *)
  urlparse_netloc : string → option string;
  (* [BeautifulSoup(content, "html.parser").get_text()] *)
  soup_get_text : Body → string;
  (* [link["href"] for link in soup.find_all("a", href=True)] *)
  soup_hrefs : Body → list string;
  (* [loc.text for loc in ET.fromstring(content).findall("ns:url/ns:loc")]:
     the text of a [<loc>] element is [None] when the element is empty;
     [ET.fromstring] raises ParseError when the document is not well formed,
     and ValueError or LookupError (another exception) when it declares an
     encoding the parser does not support or does not know *)
  sitemap_locs : Body → result (list (option string));
  (* [translate.Client()] *)
  new_Client : World → result Client * World;
  (* [client.translate(text, target_language=t)["translatedText"]] *)
  client_translate : Client → string → string → World → result string * World;
  (* [UnstructuredReader().load_data(file=f, ...)] *)
  pdf_load_data : string → World → result (list Document) * World;
}.

(** ** The status of an answer

    [requests_get] stands for the three steps that every call site of the
    script makes.  For the properties that depend on the status of the
    answer the steps are spelled out here: a platform on which a status
    matters has [requests_get = checked_get get] for its [requests.get]. *)

(** [requests.Response], as far as the script reads it. *)
Record Response (B : Type) : Type := {
  status_code : Z;
  response_content : B;      (* [response.content] *)
}.
Arguments status_code {B} _.
Arguments response_content {B} _.

(** [response.raise_for_status()]: it raises HTTPError, a
    RequestException, for a status from 400 to 599 and returns for every
    other status. *)
Definition raise_for_status {B} (response : Response B) : result unit :=
  if bool_decide (400 ≤ status_code response < 600)%Z
  then Raise RequestException else Ok ().

(** [response = requests.get(url); response.raise_for_status()], giving
    [response.content], for [get] the call [requests.get(url)]. *)
Definition checked_get {W B} (get : string → W → result (Response B) * W)
    (url : string) (w : W) : result B * W :=
  match get url w with
  | (Ok response, w') =>
      (match raise_for_status response with
       | Ok _ => Ok (response_content response)
       | Raise e => Raise e
       end, w')
  | (Raise e, w') => (Raise e, w')
  end.

(** ** Process state and the monad of the script *)

Record PState `{Platform} : Type := {
  world : World;
  translate_client : option Client;   (* the module global *)
  (* the calls of [requests.get] the script has made so far, one entry per
     call; what a call does on the network (redirects that are followed)
     and the traffic of the other libraries (the translation client, the
     PDF reader) are part of [world], not of this list *)
  log : list request;
}.

Definition M `{Platform} (A : Type) : Type := PState → result A * PState.

Section Monad.
Context `{Platform}.

Definition ret {A} (a : A) : M A := λ ps, (Ok a, ps).

Definition raise {A} (e : exn) : M A := λ ps, (Raise e, ps).

Definition bind {A B} (m : M A) (k : A → M B) : M B :=
  λ ps, match m ps with
        | (Ok a, ps') => k a ps'
        | (Raise e, ps') => (Raise e, ps')
        end.

(** [try: m except (classes): handler]; the handler runs in the state the
    failed body left behind. *)
Definition try_except {A} (m : M A) (caught : exn → bool) (handler : M A) : M A :=
  λ ps, match m ps with
        | (Ok a, ps') => (Ok a, ps')
        | (Raise e, ps') => if caught e then handler ps' else (Raise e, ps')
        end.

(** A library call that raises [e] when it has no value. *)
Definition or_raise {A} (e : exn) (o : option A) : M A :=
  match o with Some a => ret a | None => raise e end.

(** A library call that returns or raises and touches no state. *)
Definition of_result {A} (r : result A) : M A := λ ps, (r, ps).
End Monad.

#[global] Instance M_ret `{Platform} : MRet M := @ret _.
#[global] Instance M_bind `{Platform} : MBind M := λ A B k m, bind m k.

Definition except_Exception (e : exn) : bool := true.
Definition except_RequestException (e : exn) : bool :=
  bool_decide (e = RequestException).
Definition except_Request_or_Parse (e : exn) : bool :=
  bool_decide (e = RequestException) || bool_decide (e = ParseError).

(** ** Global configuration *)

Definition IGNORE_PATTERNS : list string :=
  ["/login"; "/signup"; "/edit"; "cdn-cgi"; "?"; "#"; ".pdf"; ".zip"; ".jpg"; ".png"].

(** [pattern in s] on Python strings: [pattern] occurs in [s] as a substring. *)
Fixpoint contains (pattern s : string) : bool :=
  String.prefix pattern s ||
  match s with
  | EmptyString => false
  | String _ s' => contains pattern s'
  end.

(** [any(pattern in current_url for pattern in IGNORE_PATTERNS)] *)
Definition ignored (current_url : string) : bool :=
  existsb (λ pattern, contains pattern current_url) IGNORE_PATTERNS.

(** ** The script *)

Section Script.
Context `{Platform}.

(** One call of [requests.get] with [raise_for_status], recorded in the
    log; it is the only definition that writes to the log. *)
Definition http_get (p : purpose) (u : string) : M Body :=
  λ ps, let (r, w) := requests_get u (world ps) in
        (r, {| world := w;
               translate_client := translate_client ps;
               log := log ps ++ [{| why := p; target := u |}] |}).

(** The list returned holds [loc.text] of every [<loc>] element, which is
    [None] for an empty element, whatever the declared return type
    [list[str]] says; the handler catches RequestException and ParseError,
    so another exception of [ET.fromstring] leaves the function. *)
Definition fetch_sitemap_urls (base_url : string) : M (list (option string)) :=
  sitemap_url ← or_raise ValueError (urljoin base_url "sitemap.xml");
  try_except
    (content ← http_get Sitemap sitemap_url;
     urls ← of_result (sitemap_locs content);
     (* [if urls: return urls], else fall through to [return []] *)
     ret (match urls with [] => [] | _ => urls end))
    except_Request_or_Parse
    (ret []).

Definition set_translate_client (c : Client) : M unit :=
  λ ps, (Ok (), {| world := world ps; translate_client := Some c; log := log ps |}).

Definition call_new_Client : M Client :=
  λ ps, let (r, w) := new_Client (world ps) in
        (r, {| world := w; translate_client := translate_client ps; log := log ps |}).

(** [client.translate(...)]: a call into the translation library; the
    requests the library makes are its own and happen in the world. *)
Definition call_translate (c : Client) (text target_language : string) : M string :=
  λ ps, let (r, w) := client_translate c text target_language (world ps) in
        (r, {| world := w; translate_client := translate_client ps; log := log ps |}).

Definition read_translate_client : M (option Client) :=
  λ ps, (Ok (translate_client ps), ps).

(** The lazy initialisation at the head of [translate_text]: the client to
    use, or [None] when [translate.Client()] raised. *)
Definition ensure_translate_client : M (option Client) :=
  current ← read_translate_client;
  match current with
  | Some c => ret (Some c)
  | None =>
      try_except
        (c ← call_new_Client;
         _ ← set_translate_client c;
         ret (Some c))
        except_Exception
        (ret None)
  end.

Definition translate_text (text target_language : string) : M string :=
  client ← ensure_translate_client;
  match client with
  | None => ret text           (* [return text] of the first handler *)
  | Some c =>
      try_except (call_translate c text target_language)
        except_Exception
        (ret text)
  end.

(** [if translate_to:] is false for [None] and for the empty string. *)
Definition truthy (translate_to : option string) : option string :=
  match translate_to with
  | Some "" => None
  | t => t
  end.

Definition process_url (url : string) (translate_to : option string)
  : M (option Document) :=
  try_except
    (content ← http_get Content url;
     page_text ← match truthy translate_to with
                  | Some t => translate_text (soup_get_text content) t
                  | None => ret (soup_get_text content)
                  end;
     ret (Some {| text := page_text; url := url |}))
    except_RequestException
    (ret None).

(** The variables of the crawl loop. *)
Record Crawl : Type := {
  visited : gset string;
  documents : list Document;
  queue : list string;
}.

(** [urljoin(current_url, link["href"])] for every anchor, in page order. *)
Definition absolute_links (current_url : string) (content : Body)
  : option (list string) :=
  mapM (urljoin current_url) (soup_hrefs content).

(** The [if recursive:] block: the queue after the links of [current_url]
    were appended. *)
Definition harvest_links (current_url : string) (seen : gset string)
    (rest : list string) : M (list string) :=
  try_except
    (content ← http_get Links current_url;
     links ← or_raise ValueError (absolute_links current_url content);
     ret (rest ++ filter (λ absolute_link, absolute_link ∉ seen) links))
    except_RequestException
    (ret rest).

(** One iteration of [while queue:].  With an empty queue the loop has
    ended and the state stays as it is.  [if doc:] holds of every Document
    and fails for [None] only. *)
Definition loop_body (base_domain : string) (recursive : bool)
    (translate_to : option string) (c : Crawl) : M Crawl :=
  match queue c with
  | [] => ret c
  | current_url :: rest =>
      if bool_decide (current_url ∈ visited c) || ignored current_url then
        ret {| visited := visited c; documents := documents c; queue := rest |}
      else
        netloc ← or_raise ValueError (urlparse_netloc current_url);
        if bool_decide (netloc ≠ base_domain) then
          ret {| visited := visited c; documents := documents c; queue := rest |}
        else
          let seen := {[current_url]} ∪ visited c in
          doc ← process_url current_url translate_to;
          let docs := match doc with
                      | Some d => documents c ++ [d]
                      | None => documents c
                      end in
          queue' ← (if recursive then harvest_links current_url seen rest
                    else ret rest);
          ret {| visited := seen; documents := docs; queue := queue' |}
  end.

(** At most [fuel] iterations of the loop. *)
Fixpoint crawl_loop (fuel : nat) (base_domain : string) (recursive : bool)
    (translate_to : option string) (c : Crawl) : M Crawl :=
  match fuel with
  | O => ret c
  | S fuel' =>
      c' ← loop_body base_domain recursive translate_to c;
      crawl_loop fuel' base_domain recursive translate_to c'
  end.

(** The crawl up to the end of its loop, stopped after [fuel] iterations:
    the state it has reached by then. *)
Definition crawl_run (fuel : nat) (urls : list string) (recursive : bool)
    (translate_to : option string) : M Crawl :=
  match urls with
  | [] => raise IndexError           (* [urls[0]] *)
  | first :: _ =>
      base_domain ← or_raise ValueError (urlparse_netloc first);
      crawl_loop fuel base_domain recursive translate_to
        {| visited := ∅; documents := []; queue := urls |}
  end.

(** [crawl_and_scrape]: [Some documents] when the loop ended within [fuel]
    iterations, [None] when it was still running. *)
Definition crawl_and_scrape (fuel : nat) (urls : list string) (recursive : bool)
    (translate_to : option string) : M (option (list Document)) :=
  c ← crawl_run fuel urls recursive translate_to;
  ret (match queue c with [] => Some (documents c) | _ => None end).

(** *** The crawl on a list that came out of a sitemap

    Both callers hand the list of [fetch_sitemap_urls] to [crawl_and_scrape]
    as it is, so an entry of [urls] can be [None].  The definitions below
    are the same loop with a queue of such entries; on a list of strings
    they are the definitions above. *)

Record LocCrawl : Type := {
  loc_visited : gset string;
  loc_documents : list Document;
  loc_queue : list (option string);
}.

(** The [if recursive:] block; the links appended are strings, as
    [urljoin] returns them. *)
Definition harvest_links_locs (current_url : string) (seen : gset string)
    (rest : list (option string)) : M (list (option string)) :=
  try_except
    (content ← http_get Links current_url;
     links ← or_raise ValueError (absolute_links current_url content);
     ret (rest ++ (Some <$> filter (λ absolute_link, absolute_link ∉ seen) links)))
    except_RequestException
    (ret rest).

(** One iteration of [while queue:].  For [current_url = None] the test
    [current_url in visited] is false and [pattern in current_url] raises
    TypeError, one of the other exceptions. *)
Definition loop_body_locs (base_domain : string) (recursive : bool)
    (translate_to : option string) (c : LocCrawl) : M LocCrawl :=
  match loc_queue c with
  | [] => ret c
  | None :: _ => raise OtherException
  | Some current_url :: rest =>
      if bool_decide (current_url ∈ loc_visited c) || ignored current_url then
        ret {| loc_visited := loc_visited c; loc_documents := loc_documents c;
               loc_queue := rest |}
      else
        netloc ← or_raise ValueError (urlparse_netloc current_url);
        if bool_decide (netloc ≠ base_domain) then
          ret {| loc_visited := loc_visited c; loc_documents := loc_documents c;
                 loc_queue := rest |}
        else
          let seen := {[current_url]} ∪ loc_visited c in
          doc ← process_url current_url translate_to;
          let docs := match doc with
                      | Some d => loc_documents c ++ [d]
                      | None => loc_documents c
                      end in
          queue' ← (if recursive then harvest_links_locs current_url seen rest
                    else ret rest);
          ret {| loc_visited := seen; loc_documents := docs; loc_queue := queue' |}
  end.

Fixpoint crawl_loop_locs (fuel : nat) (base_domain : string) (recursive : bool)
    (translate_to : option string) (c : LocCrawl) : M LocCrawl :=
  match fuel with
  | O => ret c
  | S fuel' =>
      c' ← loop_body_locs base_domain recursive translate_to c;
      crawl_loop_locs fuel' base_domain recursive translate_to c'
  end.

(** [urlparse(None)] does not raise: it returns the empty byte strings, so
    [base_domain] is [b''], which the loop never gets to compare: its first
    iteration dequeues the [None] and raises. *)
Definition crawl_run_locs (fuel : nat) (urls : list (option string))
    (recursive : bool) (translate_to : option string) : M LocCrawl :=
  match urls with
  | [] => raise IndexError           (* [urls[0]] *)
  | first :: _ =>
      base_domain ← match first with
                     | Some first => or_raise ValueError (urlparse_netloc first)
                     | None => ret ""
                     end;
      crawl_loop_locs fuel base_domain recursive translate_to
        {| loc_visited := ∅; loc_documents := []; loc_queue := urls |}
  end.

Definition crawl_and_scrape_locs (fuel : nat) (urls : list (option string))
    (recursive : bool) (translate_to : option string)
  : M (option (list Document)) :=
  c ← crawl_run_locs fuel urls recursive translate_to;
  ret (match loc_queue c with [] => Some (loc_documents c) | _ => None end).

(** The parsed command line. *)
Record Args : Set := {
  arg_urls : list string;
  arg_pdfs : list string;
  arg_recursive : bool;
  arg_translate_to : option string;
}.

(** [pdf_reader.load_data(...)]: a call into the reader library; whatever
    it reads or downloads happens in the world and is no call of
    [requests.get] by the script. *)
Definition call_pdf_load_data (file : string) : M (list Document) :=
  λ ps, let (r, w) := pdf_load_data file (world ps) in
        (r, {| world := w; translate_client := translate_client ps; log := log ps |}).

(** Step 2 of [load_documents_from_sources], run on what step 1 loaded:
    the documents of the first PDF are appended. *)
Definition extend_with_pdfs (args : Args) (web : option (list Document))
  : M (option (list Document)) :=
  match web with
  | None => ret None
  | Some documents =>
      match arg_pdfs args with
      | [] => ret (Some documents)
      | file :: _ =>
          pdf_documents ← call_pdf_load_data file;
          ret (Some (documents ++ pdf_documents))
      end
  end.

Definition load_documents_from_sources (fuel : nat) (args : Args)
  : M (option (list Document)) :=
  web ← match arg_urls args with
         | [] => ret (Some [])
         | first :: _ =>
             sitemap_urls ← fetch_sitemap_urls first;
             (* [sitemap_urls or args.urls] *)
             let scrape_urls := match sitemap_urls with
                                | [] => Some <$> arg_urls args
                                | _ => sitemap_urls
                                end in
             crawl_and_scrape_locs fuel scrape_urls (arg_recursive args)
               (arg_translate_to args)
         end;
  extend_with_pdfs args web.

(** [load_api_reference_documents] of [create_core_knowledge_base.py]. *)
Definition load_api_reference_documents (fuel : nat) (url : string)
  : M (option (list Document)) :=
  try_except
    (sitemap_urls ← fetch_sitemap_urls url;
     let scrape_urls := match sitemap_urls with
                        | [] => [Some url]
                        | _ => sitemap_urls
                        end in
     (* [recursive=not sitemap_urls] *)
     crawl_and_scrape_locs fuel scrape_urls
       (match sitemap_urls with [] => true | _ => false end) None)
    except_Exception
    (ret (Some [])).
End Script.

(** ** A concrete platform

    [urllib.parse] as CPython implements it, as far as the crawler depends
    on it, and a static web site served from a table.  It is the platform
    on which the properties below are run on concrete inputs. *)

Module Python.

Definition is_alpha (c : ascii) : bool :=
  let n := nat_of_ascii c in
  (Nat.leb 65 n && Nat.leb n 90) || (Nat.leb 97 n && Nat.leb n 122).

Definition is_digit (c : ascii) : bool :=
  let n := nat_of_ascii c in Nat.leb 48 n && Nat.leb n 57.

(** [scheme_chars]: letters, digits and ["+-."] *)
Definition is_scheme_char (c : ascii) : bool :=
  is_alpha c || is_digit c
  || bool_decide (c = "+"%char) || bool_decide (c = "-"%char)
  || bool_decide (c = "."%char).

(** [url[:i], url[i+1:]] for [i = url.find(':')], when there is a colon. *)
Fixpoint split_colon (url : string) : option (string * string) :=
  match url with
  | EmptyString => None
  | String c rest =>
      if bool_decide (c = ":"%char) then Some ("", rest)
      else match split_colon rest with
           | Some (before, after) => Some (String c before, after)
           | None => None
           end
  end.

Fixpoint all_chars (p : ascii → bool) (s : string) : bool :=
  match s with
  | EmptyString => true
  | String c s' => p c && all_chars p s'
  end.

Fixpoint has_char (c : ascii) (s : string) : bool :=
  match s with
  | EmptyString => false
  | String d s' => bool_decide (c = d) || has_char c s'
  end.

(** The scheme test of [urlsplit]: [(scheme, rest)], the scheme empty
    when the text before the first colon is not one.  The scheme is left
    in the case it was written in. *)
Definition split_scheme (url : string) : string * string :=
  match split_colon url with
  | Some (String c before, after) =>
      if is_alpha c && all_chars is_scheme_char (String c before)
      then (String c before, after)
      else ("", url)
  | _ => ("", url)
  end.

(** [_splitnetloc(url, 0)]: cut at the first of ['/'], ['?'], ['#']. *)
Fixpoint splitnetloc (s : string) : string * string :=
  match s with
  | EmptyString => ("", "")
  | String c s' =>
      if bool_decide (c = "/"%char) || bool_decide (c = "?"%char)
         || bool_decide (c = "#"%char)
      then ("", s)
      else let (n, rest) := splitnetloc s' in (String c n, rest)
  end.

(** [(scheme, netloc, rest)] of [urlsplit], or [None] for its
    [ValueError("Invalid IPv6 URL")].  The stripping of control
    characters, the validation of a bracketed host and the NFKC check of
    a non-ASCII host are not modelled. *)
Definition urlsplit (url : string) : option (string * string * string) :=
  let (scheme, rest) := split_scheme url in
  match rest with
  | String "/" (String "/" after) =>
      let (netloc, path) := splitnetloc after in
      if xorb (has_char "[" netloc) (has_char "]" netloc) then None
      else Some (scheme, netloc, path)
  | _ => Some (scheme, "", rest)
  end.

Definition netloc (url : string) : option string :=
  match urlsplit url with
  | Some (_, n, _) => Some n
  | None => None
  end.

(** [path] up to and including its last ['/']; ["/"] for an empty path. *)
Fixpoint dirname (path : string) : string :=
  match path with
  | EmptyString => ""
  | String c rest =>
      if has_char "/" rest then String c (dirname rest)
      else if bool_decide (c = "/"%char) then "/" else ""
  end.

(** [urljoin] for an http(s) base and the references the demonstration
    site uses: a reference with another scheme or with a netloc of its own
    is returned as it is, a path starting with ['/'] replaces the path of
    the base, a plain name replaces its last segment.  Dot segments,
    parameters, queries and fragments are not modelled. *)
Definition urljoin (base url : string) : option string :=
  if bool_decide (base = "") then Some url
  else if bool_decide (url = "") then Some base
  else
    match urlsplit base, urlsplit url with
    | Some (bscheme, bnetloc, bpath), Some (scheme, netloc, path) =>
        let scheme := if bool_decide (scheme = "") then bscheme else scheme in
        if negb (bool_decide (scheme = bscheme)) then Some url
        else if negb (bool_decide (netloc = "")) then
          Some (scheme +:+ "://" +:+ netloc +:+ path)
        else
          let root := bscheme +:+ "://" +:+ bnetloc in
          match path with
          | String "/" _ => Some (root +:+ path)
          | _ => Some (root +:+ (if bool_decide (bpath = "") then "/" else dirname bpath)
                            +:+ path)
          end
    | _, _ => None
    end.

End Python.

Module Demo.

(** What the parsers make of a response body. *)
Inductive body : Set :=
| Html (page_text : string) (hrefs : list string)
| SitemapXml (locs : list string)
| SitemapWithEmptyLoc (locs : list (option string))
| UnknownEncoding
| Malformed.

Record Setup : Type := {
  site : string → result body;
  client_available : bool;
  translation : string → string → result string;
}.

Definition platform (s : Setup) : Platform := {|
  World := unit;
  Body := body;
  Client := unit;
  requests_get u w := (site s u, w);
  urljoin := Python.urljoin;
  urlparse_netloc := Python.netloc;
  soup_get_text b := match b with Html t _ => t | _ => "" end;
  soup_hrefs b := match b with Html _ hs => hs | _ => [] end;
  sitemap_locs b := match b with
                    | SitemapXml ls => Ok (Some <$> ls)
                    | SitemapWithEmptyLoc ls => Ok ls
                    | UnknownEncoding => Raise OtherException
                    | _ => Raise ParseError
                    end;
  new_Client w := (if client_available s then Ok () else Raise OtherException, w);
  client_translate _ t lang w := (translation s t lang, w);
  pdf_load_data _ w := (Ok [], w);
|}.

Definition start (s : Setup) : @PState (platform s) :=
  @Build_PState (platform s) () None [].

(** A table of pages; every other URL answers 404. *)
Fixpoint serve (table : list (string * body)) (u : string) : result body :=
  match table with
  | [] => Raise RequestException
  | (v, b) :: table' => if bool_decide (u = v) then Ok b else serve table' u
  end.

(** The scenario of the specification: no sitemap, [/docs] links to
    [/docs/a] and to another host. *)
Definition docs_site : Setup := {|
  site := serve
    [("https://example.com/docs",
      Html "docs" ["/docs/a"; "https://other.com/x"]);
     ("https://example.com/docs/a", Html "a" []);
     ("https://other.com/x", Html "x" [])];
  client_available := false;
  translation _ _ := Raise OtherException;
|}.

(** A site with a sitemap that lists one page, which links to a page the
    sitemap does not list. *)
Definition sitemap_site : Setup := {|
  site := serve
    [("https://example.com/sitemap.xml", SitemapXml ["https://example.com/a"]);
     ("https://example.com/a", Html "a" ["https://example.com/b"]);
     ("https://example.com/b", Html "b" [])];
  client_available := true;
  translation _ _ := Raise OtherException;
|}.

(** A site whose sitemap has an empty [<loc>] element between two pages. *)
Definition empty_loc_site : Setup := {|
  site := serve
    [("https://example.com/sitemap.xml",
      SitemapWithEmptyLoc [Some "https://example.com/a"; None;
                           Some "https://example.com/b"]);
     ("https://example.com/a", Html "a" []);
     ("https://example.com/b", Html "b" [])];
  client_available := false;
  translation _ _ := Raise OtherException;
|}.

Definition docs : string := "https://example.com/docs".
Definition docs_a : string := "https://example.com/docs/a".

(** A site of one page, whose one link has an unbalanced bracket where the
    host is written. *)
Definition bracket_site : Setup := {|
  site := serve [("https://example.com/docs", Html "docs" ["//["])];
  client_available := false;
  translation _ _ := Raise OtherException;
|}.

(** A table of answers with their status; no other URL can be reached
    (ConnectionError, a RequestException). *)
Fixpoint answer (table : list (string * (Z * body))) (u : string)
  : result (Response body) :=
  match table with
  | [] => Raise RequestException
  | (v, (code, b)) :: table' =>
      if bool_decide (u = v)
      then Ok {| status_code := code; response_content := b |}
      else answer table' u
  end.

(** [requests.get] on such a table. *)
Definition status_get (table : list (string * (Z * body))) (u : string) (w : unit)
  : result (Response body) * unit :=
  (answer table u, w).

(** The site of a table of answers: its requests are answered through
    [raise_for_status]. *)
Definition status_site (table : list (string * (Z * body))) : Setup := {|
  site u := (checked_get (status_get table) u ()).1;
  client_available := false;
  translation _ _ := Raise OtherException;
|}.

Definition gone : string := "https://example.com/gone".
Definition choices : string := "https://example.com/choices".

(** A page that answers 200, one that answers 404, and one that answers
    300 (Multiple Choices) with a body. *)
Definition statuses : list (string * (Z * body)) :=
  [(docs, (200%Z, Html "docs" ["/gone"; "/choices"]));
   (gone, (404%Z, Html "not found" []));
   (choices, (300%Z, Html "choices" []))].

Definition args_for (urls : list string) (recursive : bool) : Args :=
  {| arg_urls := urls; arg_pdfs := []; arg_recursive := recursive;
     arg_translate_to := None |}.

Definition missing : string := "https://example.com/missing".

(** The site of the scenario as a static link graph. *)
Definition docs_pages (u : string) : option body :=
  match site docs_site u with Ok b => Some b | Raise _ => None end.

Definition other_x : string := "https://other.com/x".

Definition docs_domain : list string := [docs; docs_a; other_x].

End Demo.


(** ** The vocabulary of the properties *)

(** The URLs requested for purpose [p], in the order of the requests. *)
Definition fetches (p : purpose) (l : list request) : list string :=
  target <$> filter (λ r, why r = p) l.

(** The text a translation call leaves: its answer, or the input when it
    raised. *)
Definition translated (text : string) (answer : result string) : string :=
  match answer with Ok s => s | Raise _ => text end.

Section Vocabulary.
Context `{Platform}.

(** The process state right after a request for [u] was answered and left
    the world in [w]. *)
Definition requested (p : purpose) (u : string) (w : World) (ps : PState) : PState :=
  {| world := w; translate_client := translate_client ps;
     log := log ps ++ [{| why := p; target := u |}] |}.

(** The translation of [text] fails in state [ps]: there is no client yet
    and [translate.Client()] raises, or the call to the client raises. *)
Definition translation_fails (text target_language : string) (ps : PState) : Prop :=
  match translate_client ps with
  | Some c => ∃ e, (client_translate c text target_language (world ps)).1 = Raise e
  | None =>
      match new_Client (world ps) with
      | (Raise _, _) => True
      | (Ok c, w) => ∃ e, (client_translate c text target_language w).1 = Raise e
      end
  end.

(** The fetch of [u] fails in the world [w]: [requests.get] raises a
    RequestException (the network), or the status of its answer is one for
    which [raise_for_status] raises.  [get] is [requests.get]. *)
Definition fetch_fails (get : string → World → result (Response Body) * World)
    (u : string) (w : World) : Prop :=
  match (get u w).1 with
  | Ok response => (400 ≤ status_code response < 600)%Z
  | Raise e => e = RequestException
  end.

(** The sitemap request for [sitemap_url] fails in state [ps]: the fetch
    raises a RequestException, or what it returns is not well-formed XML. *)
Definition sitemap_fails (sitemap_url : string) (ps : PState) : Prop :=
  match (requests_get sitemap_url (world ps)).1 with
  | Ok content => sitemap_locs content = Raise ParseError
  | Raise e => e = RequestException
  end.

(** A state of the crawl on strings as a state of the crawl on sitemap
    entries, and back: the strings of the queue, its [None] entries left
    out. *)
Definition as_locs (c : Crawl) : LocCrawl :=
  {| loc_visited := visited c; loc_documents := documents c;
     loc_queue := Some <$> queue c |}.

Definition strings_of (c : LocCrawl) : Crawl :=
  {| visited := loc_visited c; documents := loc_documents c;
     queue := omap id (loc_queue c) |}.

(** A URL the dequeue-time test lets through for the base domain [base]. *)
Definition in_scope (base u : string) : Prop :=
  ignored u = false ∧ urlparse_netloc u = Some base.

(** What the requests [trace] of a crawl look like when [seen] is its
    visited set. *)
Record trace_ok (base : string) (seen : gset string) (trace : list request) : Prop := {
  content_once : NoDup (fetches Content trace);
  links_once : NoDup (fetches Links trace);
  content_seen : ∀ u, u ∈ fetches Content trace ↔ u ∈ seen;
  links_seen : ∀ u, u ∈ fetches Links trace → u ∈ seen;
  no_sitemap : fetches Sitemap trace = [];
  seen_in_scope : ∀ u, u ∈ seen → in_scope base u;
}.

(** The invariant of the crawl loop; [l0] is the log the crawl started
    with. *)
Record crawl_inv (base : string) (l0 : list request) (c : Crawl) (ps : PState) : Prop := {
  inv_trace : ∃ trace, log ps = l0 ++ trace ∧ trace_ok base (visited c) trace;
  inv_documents_seen : ∀ d, d ∈ documents c → url d ∈ visited c;
  inv_documents_once : NoDup (url <$> documents c);
}.

(** What is left of the invariant when the crawl was aborted. *)
Definition run_ok (base : string) (l0 : list request) (ps : PState) : Prop :=
  ∃ trace seen, log ps = l0 ++ trace ∧ trace_ok base seen trace.

(** The invariant of a crawl that does not follow links: the queue holds
    input URLs only, and so do the requests, all of them for content. *)
Definition flat_inv (urls : list string) (l0 : list request)
    (pending : list string) (ps : PState) : Prop :=
  (∀ u, u ∈ pending → u ∈ urls)
  ∧ ∃ trace, log ps = l0 ++ trace
             ∧ ∀ r, r ∈ trace → why r = Content ∧ target r ∈ urls.

End Vocabulary.

(** A static site: [site u] is the body every request for [u] is answered
    with, [None] when the fetch fails; [domain] lists the URLs of its link
    graph, [urls] are the URLs a crawl starts from. *)
Section LinkGraph.
Context `{Platform}.
Variable site : string → option Body.
Variable domain : list string.
Variable urls : list string.
Variable base : string.
Variable recursive : bool.

(** The outbound links of [u], made absolute. *)
Definition links_of (u : string) : list string :=
  match site u with
  | Some content => default [] (absolute_links u content)
  | None => []
  end.

(** The URLs the crawl can come across: the input URLs and, when links
    are followed, the links of in-scope URLs it can come across. *)
Inductive reachable : string → Prop :=
| reach_seed u : u ∈ urls → reachable u
| reach_link u v :
    recursive = true → reachable u → in_scope base u → v ∈ links_of u →
    reachable v.

(** An in-scope URL that answers. *)
Definition page (u : string) : Prop := in_scope base u ∧ is_Some (site u).

Record site_inv (c : Crawl) : Prop := {
  queue_reachable : ∀ u, u ∈ queue c → reachable u ∧ u ∈ domain;
  visited_reachable : ∀ u, u ∈ visited c → reachable u ∧ in_scope base u ∧ u ∈ domain;
  documents_pages : ∀ u, u ∈ url <$> documents c ↔ u ∈ visited c ∧ is_Some (site u);
  urls_found : ∀ v, v ∈ urls → in_scope base v → v ∈ visited c ∨ v ∈ queue c;
  links_found : ∀ u v,
    recursive = true → u ∈ visited c → v ∈ links_of u → in_scope base v →
    v ∈ visited c ∨ v ∈ queue c;
}.

End LinkGraph.

(** ** Index construction and lookup

    [build_and_save_index] and [main] of [create_knowledge_base.py],
    [load_confluence_documents], [build_core_index] and [main] of
    [create_core_knowledge_base.py], and [ChromaDBReader.load_data] of
    [verify_chroma.py].  The Chroma database is a finite map from collection
    names to the entries of the collection; it outlives a run of a script.
    Authentication, embedding, Confluence and the similarity search are
    further calls into the outside world. *)

(** The dictionary [collection.query] returns.  [qr_documents] is [None]
    when the key is missing or holds [None]; [qr_distances] is [None] when
    the key is missing and [Some None] when it holds [None]. *)
Record QueryResult (Distance : Type) : Type := {
  qr_ids : list (list string);
  qr_documents : option (list (list string));
  qr_distances : option (option (list (list Distance)));
}.
Arguments qr_ids {Distance} _.
Arguments qr_documents {Distance} _.
Arguments qr_distances {Distance} _.

(** [Document(text=doc_text, extra_info={"id": ..., "distance": ...})] *)
Record Hit (Distance : Type) : Type := {
  hit_text : string;
  hit_id : string;
  hit_distance : option Distance;
}.
Arguments hit_text {Distance} _.
Arguments hit_id {Distance} _.
Arguments hit_distance {Distance} _.

Class Backend `{Platform} : Type := {
  Entry : Type;          (* what a collection keeps of the indexed documents *)
  Embedding : Type;
  Distance : Type;
  (* [os.getenv(name)], the .env file loaded *)
  getenv : string → option string;
  (* [s.lower()]: the lowercase mapping of the Unicode tables of the
     interpreter *)
  lower : string → string;
  (* [ConfluenceReader(base_url=b, user_name=u, api_token=k)
        .load_data(space_key=s, include_attachments=False)] *)
  confluence_load_data :
    string → string → string → string → World → result (list Document) * World;
  (* [chromadb.PersistentClient(path="./chroma_db")] *)
  new_PersistentClient : World → result unit * World;
  (* the names chromadb accepts for a collection *)
  valid_collection_name : string → bool;
  (* the exception chromadb raises for a collection that does not exist:
     ValueError in its older releases, NotFoundError in the later ones *)
  collection_not_found : exn;
  (* [google.auth.default()] *)
  google_auth_default : World → result unit * World;
  (* [VertexTextEmbedding(model_name="text-embedding-004", ...)] *)
  new_VertexTextEmbedding : World → result unit * World;
  (* [VectorStoreIndex.from_documents(documents, ...)]: whether it raised,
     and the entries it added to the collection of its vector store *)
  index_from_documents : list Document → World → (result unit * list Entry) * World;
  (* [embed_model.get_text_embedding(query_text)] *)
  get_text_embedding : string → World → result Embedding * World;
  (* [collection.query(query_embeddings=[e], n_results=top_n)] *)
  collection_query :
    list Entry → Embedding → Z → World → result (QueryResult Distance) * World;
}.

(** The process together with the database on disk. *)
Record Store `{Backend} : Type := {
  process : PState;
  chroma : gmap string (list Entry);
}.

Definition Job `{Backend} (A : Type) : Type := Store → result A * Store.

(** [f"{name.lower()}_docs"] *)
Definition collection_name `{Backend} (name : string) : string :=
  lower name +:+ "_docs".

Section Jobs.
Context `{Backend}.

Definition job_ret {A} (a : A) : Job A := λ st, (Ok a, st).

Definition job_bind {A B} (m : Job A) (k : A → Job B) : Job B :=
  λ st, match m st with
        | (Ok a, st') => k a st'
        | (Raise e, st') => (Raise e, st')
        end.

Definition job_try {A} (m : Job A) (caught : exn → bool) (handler : Job A) : Job A :=
  λ st, match m st with
        | (Ok a, st') => (Ok a, st')
        | (Raise e, st') => if caught e then handler st' else (Raise e, st')
        end.

(** A computation that touches no state. *)
Definition job_result {A} (r : result A) : Job A := λ st, (r, st).

(** A function of the crawler, run within a job. *)
Definition run_M {A} (m : M A) : Job A :=
  λ st, let (r, ps) := m (process st) in
        (r, {| process := ps; chroma := chroma st |}).

(** A call into the outside world. *)
Definition call {A} (f : World → result A * World) : Job A :=
  run_M (λ ps, let (r, w) := f (world ps) in
               (r, {| world := w; translate_client := translate_client ps;
                      log := log ps |})).
End Jobs.

#[global] Instance Job_ret `{Backend} : MRet Job := @job_ret _ _.
#[global] Instance Job_bind `{Backend} : MBind Job := λ A B k m, job_bind m k.

Section Index.
Context `{Backend}.

(** [db.delete_collection(name=n)]: chromadb raises when there is no such
    collection. *)
Definition delete_collection (n : string) : Job unit :=
  λ st, match chroma st !! n with
        | Some _ => (Ok (), {| process := process st; chroma := delete n (chroma st) |})
        | None => (Raise collection_not_found, st)
        end.

(** [db.get_or_create_collection(n)]: chromadb checks the name first. *)
Definition get_or_create_collection (n : string) : Job unit :=
  λ st, if valid_collection_name n then
          match chroma st !! n with
          | Some _ => (Ok (), st)
          | None => (Ok (), {| process := process st; chroma := <[n := []]> (chroma st) |})
          end
        else (Raise ValueError, st).

(** [db.get_collection(n)]: the entries of the collection; chromadb raises
    when there is no such collection. *)
Definition get_collection (n : string) : Job (list Entry) :=
  λ st, match chroma st !! n with
        | Some entries => (Ok entries, st)
        | None => (Raise collection_not_found, st)
        end.

(** [[c.name for c in db.list_collections()]] *)
Definition list_collections : Job (gset string) :=
  λ st, (Ok (dom (chroma st)), st).

(** [VectorStoreIndex.from_documents] on the vector store of collection [n]. *)
Definition from_documents (n : string) (documents : list Document) : Job unit :=
  λ st, let '((r, added), w) := index_from_documents documents (world (process st)) in
        (r, {| process := {| world := w;
                             translate_client := translate_client (process st);
                             log := log (process st) |};
               chroma := alter (λ entries, entries ++ added) n (chroma st) |}).

(** The last three steps of [build_and_save_index] and of
    [build_core_index], for the statements about them. *)
Definition embed_and_index (n : string) (documents : list Document) : Job unit :=
  _ ← call google_auth_default;
  _ ← call new_VertexTextEmbedding;
  from_documents n documents.

Definition build_and_save_index (name : string) (documents : list Document)
    (overwrite : bool) : Job unit :=
  _ ← call new_PersistentClient;
  let collection := collection_name name in
  _ ← (if overwrite then delete_collection collection else job_ret ());
  _ ← get_or_create_collection collection;
  _ ← call google_auth_default;
  _ ← call new_VertexTextEmbedding;
  from_documents collection documents.

(** [main] of [create_knowledge_base.py] on the parsed arguments; the result
    is [None] when the crawl was still running after [fuel] iterations. *)
Definition main (fuel : nat) (name : string) (overwrite : bool) (args : Args)
  : Job (option unit) :=
  documents ← run_M (load_documents_from_sources fuel args);
  match documents with
  | None => job_ret None
  | Some [] => job_ret (Some ())       (* [if not documents: ... return] *)
  | Some documents =>
      _ ← build_and_save_index name documents overwrite;
      job_ret (Some ())
  end.

Definition load_confluence_documents (base_url space_key : string)
  : Job (list Document) :=
  match truthy (getenv "CONFLUENCE_USERNAME"), truthy (getenv "CONFLUENCE_API_KEY") with
  | Some username, Some api_key =>
      job_try (call (confluence_load_data base_url username api_key space_key))
        except_Exception
        (job_ret [])
  | _, _ => job_ret []                 (* [if not username or not api_key] *)
  end.

Definition build_core_index (documents : list Document) : Job unit :=
  match documents with
  | [] => job_ret ()                   (* [if not documents: ... return] *)
  | _ =>
      _ ← call new_PersistentClient;
      existing_collections ← list_collections;
      _ ← (if bool_decide ("core_knowledge" ∈ existing_collections)
           then delete_collection "core_knowledge" else job_ret ());
      _ ← get_or_create_collection "core_knowledge";
      _ ← call google_auth_default;
      _ ← call new_VertexTextEmbedding;
      from_documents "core_knowledge" documents
  end.

(** [main] of [create_core_knowledge_base.py] on the parsed arguments. *)
Definition core_main (fuel : nat) (confluence_url confluence_space api_ref_url : string)
  : Job (option unit) :=
  confluence ← load_confluence_documents confluence_url confluence_space;
  api_reference ← run_M (load_api_reference_documents fuel api_ref_url);
  match api_reference with
  | None => job_ret None
  | Some api_reference =>
      _ ← build_core_index (confluence ++ api_reference);
      job_ret (Some ())
  end.

(** [l[i]] for [i ≥ 0]. *)
Definition index {A} (l : list A) (i : nat) : result A :=
  match l !! i with Some a => Ok a | None => Raise IndexError end.

(** The Document of the [i]-th text of a query result.  Subscripting [None]
    raises TypeError, one of the other exceptions. *)
Definition hit_of_result (results : QueryResult Distance) (i : nat) (doc_text : string)
  : result (Hit Distance) :=
  match index (qr_ids results) 0 with
  | Raise e => Raise e
  | Ok ids =>
      match index ids i with
      | Raise e => Raise e
      | Ok id =>
          (* [results.get("distances", [[None]])[0][i]] *)
          match qr_distances results with
          | None =>
              match index [@None Distance] i with
              | Ok d => Ok {| hit_text := doc_text; hit_id := id; hit_distance := d |}
              | Raise e => Raise e
              end
          | Some None => Raise OtherException
          | Some (Some distances) =>
              match index distances 0 with
              | Raise e => Raise e
              | Ok row =>
                  match index row i with
                  | Raise e => Raise e
                  | Ok d =>
                      Ok {| hit_text := doc_text; hit_id := id; hit_distance := Some d |}
                  end
              end
          end
      end
  end.

(** The loop over [enumerate(results["documents"][0])], from index [i] on. *)
Fixpoint hits_from (results : QueryResult Distance) (i : nat) (texts : list string)
  : result (list (Hit Distance)) :=
  match texts with
  | [] => Ok []
  | doc_text :: texts' =>
      match hit_of_result results i doc_text with
      | Raise e => Raise e
      | Ok doc =>
          match hits_from results (S i) texts' with
          | Raise e => Raise e
          | Ok documents => Ok (doc :: documents)
          end
      end
  end.

(** The tail of [load_data]: [if results and results.get("documents")]. *)
Definition result_documents (results : QueryResult Distance)
  : result (list (Hit Distance)) :=
  match qr_documents results with
  | None | Some [] => Ok []
  | Some (texts :: _) => hits_from results 0 texts
  end.

(** [ChromaDBReader(collection_name=n).load_data(query_text, top_n)]; the
    client of the reader was created by its constructor. *)
Definition load_data (n : string) (query_text : string) (top_n : Z)
  : Job (list (Hit Distance)) :=
  entries ← get_collection n;
  _ ← call google_auth_default;
  _ ← call new_VertexTextEmbedding;
  query_embedding ← call (get_text_embedding query_text);
  results ← call (collection_query entries query_embedding top_n);
  job_result (result_documents results).
End Index.


(** A backend for the concrete platform: an entry is the indexed document
    itself, every name is accepted, authentication succeeds when [auth_ok]
    says so, and a query returns the texts of all entries with their
    URLs as ids, without distances.  Names are ASCII text. *)
Module DemoStore.
Import Demo.

(** [s.lower()] on ASCII text. *)
Definition ascii_lower_char (c : ascii) : ascii :=
  let n := nat_of_ascii c in
  if Nat.leb 65 n && Nat.leb n 90 then ascii_of_nat (n + 32) else c.

Fixpoint ascii_lower (s : string) : string :=
  match s with
  | EmptyString => EmptyString
  | String c s' => String (ascii_lower_char c) (ascii_lower s')
  end.

Definition backend (s : Setup) (auth_ok : bool) : @Backend (platform s) := {|
  Entry := Document;
  Embedding := unit;
  Distance := Z;
  getenv _ := None;
  lower := ascii_lower;
  confluence_load_data _ _ _ _ w := (Ok [], w);
  new_PersistentClient w := (Ok (), w);
  valid_collection_name _ := true;
  collection_not_found := ValueError;
  google_auth_default w := (if auth_ok then Ok () else Raise OtherException, w);
  new_VertexTextEmbedding w := (Ok (), w);
  index_from_documents documents w := ((Ok (), documents), w);
  get_text_embedding _ w := (Ok (), w);
  collection_query entries _ _ w :=
    (Ok {| qr_ids := [url <$> entries];
           qr_documents := Some [text <$> entries];
           qr_distances := None |}, w);
|}.

(** A database on disk at the start of a run. *)
Definition store (s : Setup) (auth_ok : bool)
    (collections : gmap string (list Document))
  : @Store (platform s) (backend s auth_ok) :=
  @Build_Store (platform s) (backend s auth_ok) (start s) collections.

Definition alma_old : list Document := [{| text := "old"; url := "https://example.com/old" |}].
Definition alma_new : list Document := [{| text := "new"; url := "https://example.com/new" |}].

(** A query result without distances and with two texts. *)
Definition two_texts : QueryResult Z :=
  {| qr_ids := [["id0"; "id1"]];
     qr_documents := Some [["first"; "second"]];
     qr_distances := None |}.

(** A query result with distances. *)
Definition two_hits : QueryResult Z :=
  {| qr_ids := [["id0"; "id1"]];
     qr_documents := Some [["first"; "second"]];
     qr_distances := Some (Some [[1%Z; 2%Z]]) |}.

(** A database that holds the collection of the name [alma]. *)
Definition with_alma : gmap string (list Document) := {[ "alma_docs" := alma_old ]}.

End DemoStore.

(** * Properties *)

(** Unfolds the monad so that a computation shows the calls it makes. *)
Ltac unfold_M :=
  unfold mbind, M_bind, mret, M_ret, or_raise, of_result, try_except, bind, ret,
    raise in *.

Section Translation.
Context `{Platform}.

(** [translate_text] never raises and makes no call of [requests.get]. *)
Lemma translate_text_returns text target_language ps :
  ∃ s ps', translate_text text target_language ps = (Ok s, ps') ∧ log ps' = log ps.
Proof.
  unfold translate_text, ensure_translate_client, read_translate_client,
    call_new_Client, set_translate_client, call_translate.
  unfold_M. simpl.
  destruct (translate_client ps) as [c|]; simpl.
  - destruct (client_translate c text target_language (world ps)) as [[s|e] w];
      simpl; eauto.
  - destruct (new_Client (world ps)) as [[c|e] w]; simpl; eauto.
    destruct (client_translate c text target_language w) as [[s|e] w'];
      simpl; eauto.
Qed.

Lemma translate_text_failure text target_language ps :
  translation_fails text target_language ps →
  (translate_text text target_language ps).1 = Ok text.
Proof.
  unfold translation_fails, translate_text, ensure_translate_client,
    read_translate_client, call_new_Client, set_translate_client, call_translate.
  unfold_M. simpl.
  destruct (translate_client ps) as [c|]; simpl.
  - intros [e He].
    destruct (client_translate c text target_language (world ps)) as [[s|e'] w];
      simpl in *; congruence.
  - destruct (new_Client (world ps)) as [[c|e] w]; simpl; [|done].
    intros [e He].
    destruct (client_translate c text target_language w) as [[s|e'] w'];
      simpl in *; congruence.
Qed.

Lemma http_get_eq p u ps :
  http_get p u ps =
  ((requests_get u (world ps)).1, requested p u (requests_get u (world ps)).2 ps).
Proof. unfold http_get, requested. by destruct (requests_get u (world ps)). Qed.

(** A page that was fetched always yields a Document for its URL. *)
Lemma process_url_fetched url translate_to ps content :
  (requests_get url (world ps)).1 = Ok content →
  ∃ page_text ps',
    process_url url translate_to ps
    = (Ok (Some {| text := page_text; url := url |}), ps')
    ∧ log ps' = log ps ++ [{| why := Content; target := url |}].
Proof.
  intros Hget. unfold process_url. unfold_M. rewrite http_get_eq, Hget.
  destruct (truthy translate_to) as [t|].
  - destruct (translate_text_returns (soup_get_text content) t
                (requested Content url (requests_get url (world ps)).2 ps))
      as (s & ps' & -> & Hlog).
    eexists _, _. split; [done|]. by rewrite Hlog.
  - eexists _, _. split; done.
Qed.

Lemma process_url_failed url translate_to ps :
  (requests_get url (world ps)).1 = Raise RequestException →
  process_url url translate_to ps
  = (Ok None, requested Content url (requests_get url (world ps)).2 ps).
Proof.
  intros Hget. unfold process_url. unfold_M. by rewrite http_get_eq, Hget.
Qed.

(** Whatever happens, [process_url] issues exactly one request. *)
Lemma process_url_log url translate_to ps :
  log (process_url url translate_to ps).2
  = log ps ++ [{| why := Content; target := url |}].
Proof.
  destruct (requests_get url (world ps)) as [[content|e] w] eqn:Hget.
  - destruct (process_url_fetched url translate_to ps content) as (?&?&->&?);
      [by rewrite Hget|done].
  - unfold process_url. unfold_M. rewrite http_get_eq, Hget. simpl.
    by destruct (except_RequestException e).
Qed.

(** C7. When the translation fails, because the client cannot be created
    or because the call raises, [translate_text] returns its input
    unchanged, the Document that [process_url] emits for a fetched page
    carries the extracted text as it was, and in no state does
    [translate_text] raise. *)
Theorem translation_failure_is_a_no_op text target_language ps :
  translation_fails text target_language ps →
  (translate_text text target_language ps).1 = Ok text
  ∧ (∀ url translate_to ps0 content,
       truthy translate_to = Some target_language →
       http_get Content url ps0 = (Ok content, ps) →
       text = soup_get_text content →
       (process_url url translate_to ps0).1
       = Ok (Some {| text := soup_get_text content; url := url |}))
  ∧ (∀ text' target_language' ps',
       ∃ s, (translate_text text' target_language' ps').1 = Ok s).
Proof.
  intros Hfail. split; [by apply translate_text_failure|]. split.
  - intros url translate_to ps0 content Ht Hget ->.
    unfold process_url. unfold_M. rewrite Hget, Ht.
    pose proof (translate_text_failure _ _ _ Hfail) as Htr.
    destruct (translate_text (soup_get_text content) target_language ps)
      as [[s|e] ps1]; simpl in *; congruence.
  - intros text' t' ps'.
    destruct (translate_text_returns text' t' ps') as (s & ps1 & -> & _). eauto.
Qed.
End Translation.

(** ** The requests of a crawl *)

Lemma fetches_app p l1 l2 : fetches p (l1 ++ l2) = fetches p l1 ++ fetches p l2.
Proof. unfold fetches. by rewrite filter_app, fmap_app. Qed.

Lemma fetches_one p q u :
  fetches p [{| why := q; target := u |}] = if decide (q = p) then [u] else [].
Proof.
  unfold fetches. rewrite filter_cons. simpl. by destruct (decide (q = p)).
Qed.

Lemma elem_of_fetches p u l :
  u ∈ fetches p l ↔ {| why := p; target := u |} ∈ l.
Proof.
  unfold fetches. rewrite list_elem_of_fmap. split.
  - intros ([q v] & -> & [Hq Hin]%list_elem_of_filter). simpl in *. by subst.
  - intros Hin. exists {| why := p; target := u |}. split; [done|].
    by apply list_elem_of_filter.
Qed.

Section Crawl.
Context `{Platform}.

Lemma trace_ok_nil base : trace_ok base ∅ [].
Proof. split; simpl; try constructor; set_solver. Qed.

Lemma trace_ok_content base seen trace u :
  trace_ok base seen trace → u ∉ seen → in_scope base u →
  trace_ok base ({[u]} ∪ seen) (trace ++ [{| why := Content; target := u |}]).
Proof.
  intros [Hc Hl Hcs Hls Hsm Hsc] Hu Hs.
  split; rewrite ?fetches_app, ?fetches_one; simpl.
  - apply NoDup_app. split_and!; [done| |apply NoDup_singleton].
    intros v Hv ->%list_elem_of_singleton. by apply Hu, Hcs.
  - by rewrite app_nil_r.
  - intros v.
    rewrite elem_of_app, list_elem_of_singleton, Hcs, elem_of_union, elem_of_singleton.
    tauto.
  - intros v. rewrite app_nil_r. intros Hv%Hls. by apply elem_of_union_r.
  - by rewrite Hsm.
  - intros v [->%elem_of_singleton|Hv]%elem_of_union; auto.
Qed.

Lemma trace_ok_links base seen trace u :
  trace_ok base seen trace → u ∉ seen → in_scope base u →
  trace_ok base ({[u]} ∪ seen)
    (trace ++ [{| why := Content; target := u |}]
           ++ [{| why := Links; target := u |}]).
Proof.
  intros Hok Hu Hs. rewrite app_assoc.
  pose proof (trace_ok_content _ _ _ _ Hok Hu Hs) as [Hc Hl Hcs Hls Hsm Hsc].
  destruct Hok as [_ _ _ Hlinks _ _].
  split; rewrite ?fetches_app, ?fetches_one in *; simpl in *;
    rewrite ?app_nil_r in *; try done.
  - apply NoDup_app. split_and!; [done| |apply NoDup_singleton].
    intros v Hv ->%list_elem_of_singleton. by apply Hu, Hlinks.
  - intros v [Hv| ->%list_elem_of_singleton]%elem_of_app; [auto|].
    apply elem_of_union_l. by apply elem_of_singleton.
Qed.

Lemma crawl_inv_run_ok base l0 c ps : crawl_inv base l0 c ps → run_ok base l0 ps.
Proof. intros [(trace & ? & ?) _ _]. by exists trace, (visited c). Qed.

Lemma process_url_document u translate_to ps d ps' :
  process_url u translate_to ps = (Ok (Some d), ps') → url d = u.
Proof.
  destruct (requests_get u (world ps)) as [[content|e] w] eqn:Hget.
  - destruct (process_url_fetched u translate_to ps content) as (?&?&->&?);
      [by rewrite Hget|].
    by intros [= <-].
  - unfold process_url. unfold_M. rewrite http_get_eq, Hget. simpl.
    by destruct (except_RequestException e).
Qed.

Lemma harvest_links_log u seen rest ps :
  log (harvest_links u seen rest ps).2 = log ps ++ [{| why := Links; target := u |}].
Proof.
  unfold harvest_links. unfold_M. rewrite http_get_eq.
  destruct (requests_get u (world ps)) as [[content|e] w]; simpl.
  - by destruct (absolute_links u content).
  - by destruct (except_RequestException e).
Qed.

(** One iteration keeps the invariant; when it raises, the requests made
    so far still have the shape the invariant describes. *)
Lemma loop_body_inv base recursive translate_to l0 c ps :
  crawl_inv base l0 c ps →
  match loop_body base recursive translate_to c ps with
  | (Ok c', ps') => crawl_inv base l0 c' ps'
  | (Raise _, ps') => run_ok base l0 ps'
  end.
Proof.
  intros Hinv. unfold loop_body.
  destruct (queue c) as [|u rest]; [done|].
  destruct (bool_decide (u ∈ visited c) || ignored u) eqn:Hskip.
  { simpl. destruct Hinv as [Ht Hs Hd]. by split. }
  apply orb_false_iff in Hskip as [Hu%bool_decide_eq_false Hign].
  unfold_M.
  destruct (urlparse_netloc u) as [n|] eqn:Hn;
    [|by eapply crawl_inv_run_ok].
  simpl. case_bool_decide as Hbase.
  { simpl. destruct Hinv as [Ht Hs Hd]. by split. }
  subst n.
  assert (in_scope base u) as Hscope by done.
  destruct Hinv as [(trace & Hlog & Hok) Hseen Honce].
  pose proof (process_url_log u translate_to ps) as Hlog1.
  destruct (process_url u translate_to ps) as [[doc|e] ps1] eqn:Hp; simpl in Hlog1.
  2:{ exists (trace ++ [{| why := Content; target := u |}]), ({[u]} ∪ visited c).
      split; [by rewrite Hlog1, Hlog, app_assoc|by apply trace_ok_content]. }
  assert (∀ d, d ∈ match doc with
                   | Some d => documents c ++ [d]
                   | None => documents c
                   end → url d ∈ {[u]} ∪ visited c) as Hseen'.
  { destruct doc as [d0|]; [|set_solver].
    apply process_url_document in Hp.
    intros d [Hd| ->%list_elem_of_singleton]%elem_of_app; set_solver. }
  assert (NoDup (url <$> match doc with
                         | Some d => documents c ++ [d]
                         | None => documents c
                         end)) as Honce'.
  { destruct doc as [d0|]; [|done].
    apply process_url_document in Hp.
    rewrite fmap_app. apply NoDup_app. split_and!; [done| |apply NoDup_singleton].
    intros v (d & -> & Hd)%list_elem_of_fmap ?%list_elem_of_singleton.
    simpl in *. apply Hu. rewrite <- Hp. replace (url d0) with (url d) by done.
    by apply Hseen. }
  destruct recursive.
  - pose proof (harvest_links_log u ({[u]} ∪ visited c) rest ps1) as Hlog2.
    destruct (harvest_links u ({[u]} ∪ visited c) rest ps1) as [[q|e] ps2];
      simpl in Hlog2.
    + split; simpl; [|done..].
      eexists. split; [|by apply trace_ok_links].
      by rewrite Hlog2, Hlog1, Hlog, <- !app_assoc.
    + eexists _, _. split; [|by apply trace_ok_links].
      by rewrite Hlog2, Hlog1, Hlog, <- !app_assoc.
  - split; simpl; [|done..].
    eexists. split; [|by apply trace_ok_content].
    by rewrite Hlog1, Hlog, <- !app_assoc.
Qed.

Lemma crawl_loop_inv fuel base recursive translate_to l0 c ps :
  crawl_inv base l0 c ps →
  match crawl_loop fuel base recursive translate_to c ps with
  | (Ok c', ps') => crawl_inv base l0 c' ps'
  | (Raise _, ps') => run_ok base l0 ps'
  end.
Proof.
  revert c ps. induction fuel as [|fuel IH]; intros c ps Hinv; [done|].
  simpl. unfold_M.
  pose proof (loop_body_inv base recursive translate_to l0 c ps Hinv) as Hstep.
  destruct (loop_body base recursive translate_to c ps) as [[c'|e] ps1]; [|done].
  by apply IH.
Qed.

Lemma crawl_inv_start base ps urls :
  crawl_inv base (log ps) {| visited := ∅; documents := []; queue := urls |} ps.
Proof.
  split; simpl.
  - exists []. split; [by rewrite app_nil_r|apply trace_ok_nil].
  - set_solver.
  - constructor.
Qed.

(** What holds of every state a crawl reaches, and of its requests even
    when it was aborted. *)
Lemma crawl_run_inv fuel urls recursive translate_to ps :
  match crawl_run fuel urls recursive translate_to ps with
  | (Ok c, ps') =>
      ∃ first base, head urls = Some first ∧ urlparse_netloc first = Some base
                    ∧ crawl_inv base (log ps) c ps'
  | (Raise _, ps') => ∃ base, run_ok base (log ps) ps'
  end.
Proof.
  unfold crawl_run. destruct urls as [|first urls'].
  { exists "". exists [], ∅. split; [by rewrite app_nil_r|apply trace_ok_nil]. }
  unfold_M. destruct (urlparse_netloc first) as [base|] eqn:Hbase.
  2:{ exists "". exists [], ∅. split; [by rewrite app_nil_r|apply trace_ok_nil]. }
  pose proof (crawl_loop_inv fuel base recursive translate_to (log ps) _ ps
                (crawl_inv_start base ps (first :: urls'))) as Hrun.
  destruct (crawl_loop fuel base recursive translate_to _ ps) as [[c|e] ps'].
  - by exists first, base.
  - by exists base.
Qed.
End Crawl.

(** ** Scope, revisits and the ignore list *)

Section CrawlProperties.
Context `{Platform}.

Lemma crawl_run_documents fuel urls recursive translate_to ps c ps' :
  crawl_run fuel urls recursive translate_to ps = (Ok c, ps') →
  ∃ first base,
    head urls = Some first ∧ urlparse_netloc first = Some base
    ∧ (∀ d, d ∈ documents c → urlparse_netloc (url d) = Some base)
    ∧ NoDup (url <$> documents c).
Proof.
  intros Hrun.
  pose proof (crawl_run_inv fuel urls recursive translate_to ps) as Hinv.
  rewrite Hrun in Hinv.
  destruct Hinv as (first & base & Hfirst & Hbase & [(trace & _ & Hok) Hseen Honce]).
  exists first, base. split_and!; try done.
  intros d Hd. by apply (seen_in_scope _ _ _ Hok), Hseen.
Qed.

Lemma crawl_and_scrape_run fuel urls recursive translate_to ps c ps' :
  crawl_run fuel urls recursive translate_to ps = (Ok c, ps') →
  crawl_and_scrape fuel urls recursive translate_to ps
  = (Ok (match queue c with [] => Some (documents c) | _ => None end), ps').
Proof. intros Hrun. unfold crawl_and_scrape. unfold_M. by rewrite Hrun. Qed.

(** C2. In every state a crawl reaches, each Document belongs to a URL
    whose netloc is the netloc of the first URL of the input list, and no
    two Documents have the same URL; [crawl_and_scrape] returns the
    Documents of the state in which the loop ended. *)
Theorem documents_in_scope_and_distinct fuel urls recursive translate_to ps c ps' :
  crawl_run fuel urls recursive translate_to ps = (Ok c, ps') →
  ∃ first base,
    head urls = Some first ∧ urlparse_netloc first = Some base
    ∧ (∀ d, d ∈ documents c → urlparse_netloc (url d) = Some base)
    ∧ NoDup (url <$> documents c)
    ∧ crawl_and_scrape fuel urls recursive translate_to ps
      = (Ok (match queue c with [] => Some (documents c) | _ => None end), ps').
Proof.
  intros Hrun.
  destruct (crawl_run_documents _ _ _ _ _ _ _ Hrun)
    as (first & base & Hfirst & Hbase & Hscope & Honce).
  exists first, base. split_and!; try done. by apply crawl_and_scrape_run.
Qed.

(** C3. Among the requests of a crawl, whether it ended, was still
    running or was aborted, no URL is fetched for its content twice and
    no URL is fetched for its links twice; links are only fetched from
    URLs whose content was fetched. *)
Theorem every_url_fetched_at_most_once fuel urls recursive translate_to ps :
  ∃ trace,
    log (crawl_run fuel urls recursive translate_to ps).2 = log ps ++ trace
    ∧ NoDup (fetches Content trace)
    ∧ NoDup (fetches Links trace)
    ∧ (∀ u, u ∈ fetches Links trace → u ∈ fetches Content trace)
    ∧ fetches Sitemap trace = [].
Proof.
  pose proof (crawl_run_inv fuel urls recursive translate_to ps) as Hinv.
  destruct (crawl_run fuel urls recursive translate_to ps) as [[c|e] ps'].
  - destruct Hinv as (_ & base & _ & _ & [(trace & Hlog & Hok) _ _]).
    exists trace. destruct Hok as [? ? Hcs Hls ? _].
    split_and!; try done. intros u Hu. by apply Hcs, Hls.
  - destruct Hinv as (base & trace & seen & Hlog & Hok).
    exists trace. destruct Hok as [? ? Hcs Hls ? _].
    split_and!; try done. intros u Hu. by apply Hcs, Hls.
Qed.

Lemma ignored_iff u :
  ignored u = true ↔ ∃ pattern, pattern ∈ IGNORE_PATTERNS ∧ contains pattern u = true.
Proof.
  unfold ignored. rewrite existsb_exists.
  split; intros (p & Hp & Hc); exists p; split; try done;
    by apply list_elem_of_In.
Qed.

(** C6. A URL that contains one of the ignore patterns is requested by no
    crawl, neither for its content nor for its links. *)
Theorem ignored_url_is_never_fetched fuel urls recursive translate_to ps u pattern :
  pattern ∈ IGNORE_PATTERNS →
  contains pattern u = true →
  ∃ trace,
    log (crawl_run fuel urls recursive translate_to ps).2 = log ps ++ trace
    ∧ ∀ p, {| why := p; target := u |} ∉ trace.
Proof.
  intros Hp Hc.
  assert (ignored u = true) as Hign by (apply ignored_iff; eauto).
  assert (∀ base seen trace, trace_ok base seen trace →
            ∀ p, {| why := p; target := u |} ∉ trace) as Hnot.
  { intros base seen trace [_ _ Hcs Hls Hsm Hsc] p Hin%elem_of_fetches.
    destruct p.
    - rewrite Hsm in Hin. by apply elem_of_nil in Hin.
    - apply Hcs, Hsc in Hin as [Hin _]. congruence.
    - apply Hls, Hsc in Hin as [Hin _]. congruence. }
  pose proof (crawl_run_inv fuel urls recursive translate_to ps) as Hinv.
  destruct (crawl_run fuel urls recursive translate_to ps) as [[c|e] ps'].
  - destruct Hinv as (_ & base & _ & _ & [(trace & Hlog & Hok) _ _]).
    exists trace. split; [done|]. by eapply Hnot.
  - destruct Hinv as (base & trace & seen & Hlog & Hok).
    exists trace. split; [done|]. by eapply Hnot.
Qed.

(** C10. With an empty list of URLs [crawl_and_scrape] raises IndexError,
    whatever its other arguments: it returns no list of Documents, and it
    has issued no request. *)
Theorem empty_seed_list_raises_IndexError fuel recursive translate_to ps :
  crawl_and_scrape fuel [] recursive translate_to ps = (Raise IndexError, ps).
Proof. reflexivity. Qed.

(** C5 as the code has it. A dequeued URL that is neither visited nor
    ignored is skipped, with no request and no change but its removal from
    the queue, when [urlparse] gives it a netloc other than the base
    domain; when [urlparse] raises ValueError on it, the iteration raises
    ValueError and so does the loop. *)
Theorem foreign_url_skipped_unparseable_url_raises
    base recursive translate_to c ps u rest :
  queue c = u :: rest → u ∉ visited c → ignored u = false →
  (∀ netloc, urlparse_netloc u = Some netloc → netloc ≠ base →
     loop_body base recursive translate_to c ps
     = (Ok {| visited := visited c; documents := documents c; queue := rest |}, ps))
  ∧ (urlparse_netloc u = None →
     ∀ fuel, crawl_loop (S fuel) base recursive translate_to c ps
             = (Raise ValueError, ps)).
Proof.
  intros Hq Hu Hign.
  assert (bool_decide (u ∈ visited c) || ignored u = false) as Hskip.
  { rewrite Hign. by rewrite bool_decide_eq_false_2. }
  split.
  - intros n Hn Hne. unfold loop_body. rewrite Hq, Hskip. unfold_M.
    rewrite Hn. simpl. by rewrite bool_decide_eq_true_2.
  - intros Hn fuel. simpl. unfold loop_body. rewrite Hq, Hskip. unfold_M.
    by rewrite Hn.
Qed.

(** When the three steps of the fetch of a dequeued in-scope URL raise a
    RequestException, [process_url] returns no Document, the iteration goes
    on to the link harvest with the documents as they were, and, when links
    are not followed or their fetch fails as well, it ends with the URL
    marked visited and the loop continues with the rest of the queue. *)
Lemma fetch_failure_skips_the_url base recursive translate_to c ps u rest :
  queue c = u :: rest → u ∉ visited c → ignored u = false →
  urlparse_netloc u = Some base →
  (requests_get u (world ps)).1 = Raise RequestException →
  let ps1 := requested Content u (requests_get u (world ps)).2 ps in
  let skipped := {| visited := {[u]} ∪ visited c;
                    documents := documents c; queue := rest |} in
  process_url u translate_to ps = (Ok None, ps1)
  ∧ loop_body base recursive translate_to c ps
    = (queue' ← (if recursive then harvest_links u ({[u]} ∪ visited c) rest
                 else ret rest);
       ret {| visited := {[u]} ∪ visited c;
              documents := documents c; queue := queue' |}) ps1
  ∧ (recursive = false ∨ (requests_get u (world ps1)).1 = Raise RequestException →
     ∃ ps2,
       loop_body base recursive translate_to c ps = (Ok skipped, ps2)
       ∧ ∀ fuel, crawl_loop (S fuel) base recursive translate_to c ps
                 = crawl_loop fuel base recursive translate_to skipped ps2).
Proof.
  intros Hq Hu Hign Hn Hget ps1 skipped.
  assert (bool_decide (u ∈ visited c) || ignored u = false) as Hskip.
  { rewrite Hign. by rewrite bool_decide_eq_false_2. }
  pose proof (process_url_failed u translate_to ps Hget) as Hp.
  assert (loop_body base recursive translate_to c ps
    = (queue' ← (if recursive then harvest_links u ({[u]} ∪ visited c) rest
                 else ret rest);
       ret {| visited := {[u]} ∪ visited c;
              documents := documents c; queue := queue' |}) ps1) as Hbody.
  { unfold loop_body. rewrite Hq, Hskip. unfold_M. rewrite Hn. simpl.
    rewrite bool_decide_eq_false_2 by (by intros Hne; apply Hne).
    by rewrite Hp. }
  split_and!; [done..|].
  intros Hlinks.
  assert (∃ ps2, loop_body base recursive translate_to c ps = (Ok skipped, ps2))
    as [ps2 Hps2].
  { rewrite Hbody. destruct Hlinks as [-> | Hget2].
    - by eexists.
    - destruct recursive; [|by eexists].
      unfold harvest_links. unfold_M. rewrite http_get_eq, Hget2. by eexists. }
  exists ps2. split; [done|]. intros fuel. simpl. unfold_M. by rewrite Hps2.
Qed.
End CrawlProperties.

(** ** Fetch failures by status *)

Section FetchStatus.
Context `{Platform}.

(** [requests.get], of which [requests_get] is the checked form. *)
Variable get : string → World → result (Response Body) * World.
Hypothesis requests_get_steps : ∀ u w, requests_get u w = checked_get get u w.

Lemma requests_get_world u w : (requests_get u w).2 = (get u w).2.
Proof.
  rewrite requests_get_steps. unfold checked_get.
  by destruct (get u w) as [[response|e] w'].
Qed.

Lemma fetch_fails_raises u w :
  fetch_fails get u w → (requests_get u w).1 = Raise RequestException.
Proof.
  unfold fetch_fails. rewrite requests_get_steps. unfold checked_get, raise_for_status.
  destruct (get u w) as [[response|e] w']; simpl.
  - intros Hstatus. by rewrite bool_decide_eq_true_2.
  - by intros ->.
Qed.

Lemma other_status_returns u w response :
  (get u w).1 = Ok response → ¬ (400 ≤ status_code response < 600)%Z →
  (requests_get u w).1 = Ok (response_content response).
Proof.
  rewrite requests_get_steps. unfold checked_get, raise_for_status.
  destruct (get u w) as [[response'|e] w']; simpl; [|done].
  intros [= ->] Hstatus. by rewrite bool_decide_eq_false_2.
Qed.

End FetchStatus.

(** ** The crawl on sitemap entries *)

Lemma omap_id_Some {A} (l : list A) : omap id (Some <$> l) = l.
Proof. induction l as [|a l IH]; [done|]. simpl. by f_equal. Qed.

Section Locs.
Context `{Platform}.

Lemma harvest_links_locs_strings u seen rest ps :
  harvest_links_locs u seen (Some <$> rest) ps
  = (q ← harvest_links u seen rest; ret (Some <$> q)) ps.
Proof.
  unfold harvest_links_locs, harvest_links. unfold_M. rewrite !http_get_eq.
  destruct (requests_get u (world ps)).1 as [content|e]; simpl.
  - destruct (absolute_links u content); simpl; [|done]. by rewrite fmap_app.
  - by destruct (except_RequestException e).
Qed.

(** On a queue of strings an iteration is the iteration of [loop_body]. *)
Lemma loop_body_locs_strings base recursive translate_to c ps :
  loop_body_locs base recursive translate_to (as_locs c) ps
  = (c' ← loop_body base recursive translate_to c; ret (as_locs c')) ps.
Proof.
  unfold loop_body_locs, loop_body, as_locs. simpl.
  destruct (queue c) as [|u rest] eqn:Hq; simpl.
  { unfold_M. by rewrite Hq. }
  destruct (bool_decide (u ∈ visited c) || ignored u); [done|].
  unfold_M. destruct (urlparse_netloc u) as [n|]; [simpl|done].
  case_bool_decide; [done|].
  destruct (process_url u translate_to ps) as [[doc|e] ps1]; [|done].
  destruct recursive; [|done].
  pose proof (harvest_links_locs_strings u ({[u]} ∪ visited c) rest ps1) as Hl.
  unfold_M. unfold fmap in *. rewrite Hl.
  by destruct (harvest_links u ({[u]} ∪ visited c) rest ps1) as [[q|e] ps2].
Qed.

Lemma crawl_loop_locs_strings fuel base recursive translate_to c ps :
  crawl_loop_locs fuel base recursive translate_to (as_locs c) ps
  = (c' ← crawl_loop fuel base recursive translate_to c; ret (as_locs c')) ps.
Proof.
  revert c ps. induction fuel as [|fuel IH]; intros c ps; [done|].
  simpl. pose proof (loop_body_locs_strings base recursive translate_to c ps) as Hb.
  unfold_M. rewrite Hb.
  destruct (loop_body base recursive translate_to c ps) as [[c'|e] ps1]; [|done].
  apply IH.
Qed.

(** On a list of strings the crawl on sitemap entries is [crawl_and_scrape]. *)
Lemma crawl_and_scrape_locs_strings fuel urls recursive translate_to ps :
  crawl_and_scrape_locs fuel (Some <$> urls) recursive translate_to ps
  = crawl_and_scrape fuel urls recursive translate_to ps.
Proof.
  unfold crawl_and_scrape_locs, crawl_and_scrape, crawl_run_locs, crawl_run.
  destruct urls as [|first urls']; [done|]. simpl. unfold_M.
  destruct (urlparse_netloc first) as [base|]; [simpl|done].
  pose proof (crawl_loop_locs_strings fuel base recursive translate_to
                {| visited := ∅; documents := []; queue := first :: urls' |} ps) as Hl.
  unfold as_locs in Hl. simpl in Hl. unfold_M. rewrite Hl.
  destruct (crawl_loop fuel base recursive translate_to _ ps) as [[c|e] ps1]; [|done].
  simpl. by destruct (queue c).
Qed.

(** An iteration on sitemap entries raises on a [None] at the head of the
    queue, leaving the state as it was, and is the iteration of [loop_body]
    on the strings of the queue otherwise. *)
Lemma loop_body_locs_step base recursive translate_to c ps :
  match loop_body_locs base recursive translate_to c ps with
  | (Ok c', ps') =>
      loop_body base recursive translate_to (strings_of c) ps
      = (Ok (strings_of c'), ps')
  | (Raise e, ps') =>
      (∃ rest, loc_queue c = None :: rest ∧ e = OtherException ∧ ps' = ps)
      ∨ loop_body base recursive translate_to (strings_of c) ps = (Raise e, ps')
  end.
Proof.
  unfold loop_body_locs, loop_body, strings_of.
  destruct c as [seen docs [|[u|] rest]]; simpl; [done| |by left; eauto].
  destruct (bool_decide (u ∈ seen) || ignored u); [done|].
  unfold_M. destruct (urlparse_netloc u) as [n|]; [simpl|by right].
  case_bool_decide; [done|].
  destruct (process_url u translate_to ps) as [[doc|e] ps1]; [|by right].
  destruct recursive; [|done].
  unfold harvest_links_locs, harvest_links. unfold_M. rewrite !http_get_eq.
  destruct (requests_get u (world ps1)).1 as [content|e]; simpl.
  - destruct (absolute_links u content) as [links|]; simpl; [|by right].
    by rewrite omap_app, omap_id_Some.
  - destruct (except_RequestException e); [done|by right].
Qed.

(** The state a crawl on sitemap entries leaves behind is one that the
    crawl on the strings among them passes through. *)
Lemma crawl_loop_locs_state fuel base recursive translate_to c ps :
  ∃ k, (crawl_loop_locs fuel base recursive translate_to c ps).2
       = (crawl_loop k base recursive translate_to (strings_of c) ps).2.
Proof.
  revert c ps. induction fuel as [|fuel IH]; intros c ps; [by exists 0|].
  simpl. pose proof (loop_body_locs_step base recursive translate_to c ps) as Hb.
  unfold_M. destruct (loop_body_locs base recursive translate_to c ps)
    as [[c'|e] ps1].
  - destruct (IH c' ps1) as [k Hk]. exists (S k). simpl. unfold_M. by rewrite Hb.
  - destruct Hb as [(rest & _ & _ & ->)|Hb]; [by exists 0|].
    exists 1. simpl. unfold_M. by rewrite Hb.
Qed.

Lemma crawl_run_locs_state fuel urls recursive translate_to ps :
  ∃ k, (crawl_run_locs fuel urls recursive translate_to ps).2
       = (crawl_run k (omap id urls) recursive translate_to ps).2.
Proof.
  unfold crawl_run_locs, crawl_run.
  destruct urls as [|[first|] urls']; simpl; [by exists 0|..].
  - unfold_M. destruct (urlparse_netloc first) as [base|]; [simpl|by exists 0].
    apply (crawl_loop_locs_state fuel base recursive translate_to
             {| loc_visited := ∅; loc_documents := [];
                loc_queue := Some first :: urls' |} ps).
  - exists 0. unfold_M. simpl.
    assert ((crawl_loop_locs fuel "" recursive translate_to
               {| loc_visited := ∅; loc_documents := [];
                  loc_queue := None :: urls' |} ps).2 = ps) as ->
      by (destruct fuel; [done|]; simpl; unfold loop_body_locs; by unfold_M).
    destruct (list_omap _ _ id urls') as [|first' rest]; [done|].
    by destruct (urlparse_netloc first').
Qed.
End Locs.

(** ** Sitemap discovery and the two callers of the crawl *)

Section Sitemap.
Context `{Platform}.

Lemma fetch_sitemap_urls_failed base_url sitemap_url ps :
  urljoin base_url "sitemap.xml" = Some sitemap_url →
  sitemap_fails sitemap_url ps →
  fetch_sitemap_urls base_url ps
  = (Ok [], requested Sitemap sitemap_url (requests_get sitemap_url (world ps)).2 ps).
Proof.
  intros Hjoin Hfail. unfold fetch_sitemap_urls, sitemap_fails in *. unfold_M.
  rewrite Hjoin. simpl. rewrite http_get_eq.
  destruct (requests_get sitemap_url (world ps)) as [[content|e] w]; simpl in *.
  - by rewrite Hfail.
  - by subst e.
Qed.

Lemma fetch_sitemap_urls_found base_url sitemap_url ps content urls :
  urljoin base_url "sitemap.xml" = Some sitemap_url →
  (requests_get sitemap_url (world ps)).1 = Ok content →
  sitemap_locs content = Ok urls →
  fetch_sitemap_urls base_url ps
  = (Ok urls, requested Sitemap sitemap_url (requests_get sitemap_url (world ps)).2 ps).
Proof.
  intros Hjoin Hget Hlocs. unfold fetch_sitemap_urls. unfold_M.
  rewrite Hjoin. simpl. rewrite http_get_eq, Hget, Hlocs. simpl.
  by destruct urls.
Qed.

Lemma loop_body_flat base translate_to urls l0 c ps :
  flat_inv urls l0 (queue c) ps →
  match loop_body base false translate_to c ps with
  | (Ok c', ps') => flat_inv urls l0 (queue c') ps'
  | (Raise _, ps') => flat_inv urls l0 [] ps'
  end.
Proof.
  intros [Hq (trace & Hlog & Htrace)]. unfold loop_body.
  assert (flat_inv urls l0 [] ps) as Hnil.
  { split; [by intros u ?%elem_of_nil|by exists trace]. }
  destruct (queue c) as [|u rest] eqn:Hqueue; simpl.
  { unfold flat_inv. rewrite Hqueue. by destruct Hnil. }
  assert (flat_inv urls l0 rest ps) as Hrest.
  { split; [|by exists trace]. intros v Hv. apply Hq. by right. }
  destruct (bool_decide (u ∈ visited c) || ignored u); [done|].
  unfold_M. destruct (urlparse_netloc u) as [n|]; [simpl|done].
  case_bool_decide; [done|].
  pose proof (process_url_log u translate_to ps) as Hlog1.
  assert (∃ trace', log ps ++ [{| why := Content; target := u |}] = l0 ++ trace'
                    ∧ ∀ r, r ∈ trace' → why r = Content ∧ target r ∈ urls)
    as Htrace'.
  { exists (trace ++ [{| why := Content; target := u |}]).
    split; [by rewrite Hlog, app_assoc|].
    intros r [Hr| ->%list_elem_of_singleton]%elem_of_app; [by apply Htrace|].
    split; [done|]. apply Hq. by left. }
  destruct (process_url u translate_to ps) as [[doc|e] ps1]; simpl in *;
    rewrite <- Hlog1 in Htrace'.
  - split; [|done]. simpl. by destruct Hrest.
  - split; [|done]. by intros v ?%elem_of_nil.
Qed.

Lemma crawl_loop_flat fuel base translate_to urls l0 c ps :
  flat_inv urls l0 (queue c) ps →
  match crawl_loop fuel base false translate_to c ps with
  | (Ok c', ps') => flat_inv urls l0 (queue c') ps'
  | (Raise _, ps') => flat_inv urls l0 [] ps'
  end.
Proof.
  revert c ps. induction fuel as [|fuel IH]; intros c ps Hinv; [done|].
  simpl. unfold_M.
  pose proof (loop_body_flat base translate_to urls l0 c ps Hinv) as Hstep.
  destruct (loop_body base false translate_to c ps) as [[c'|e] ps1]; [|done].
  by apply IH.
Qed.

(** X21. Without link-following a crawl requests nothing but the content of
    URLs of its input list, and its queue never holds anything else. *)
Lemma crawl_without_link_following fuel urls translate_to ps :
  ∃ trace,
    log (crawl_run fuel urls false translate_to ps).2 = log ps ++ trace
    ∧ (∀ r, r ∈ trace → why r = Content ∧ target r ∈ urls)
    ∧ ∀ c, (crawl_run fuel urls false translate_to ps).1 = Ok c →
           ∀ u, u ∈ queue c → u ∈ urls.
Proof.
  assert (flat_inv urls (log ps) [] ps) as Hnil.
  { split; [by intros u ?%elem_of_nil|]. exists []. split; [by rewrite app_nil_r|].
    by intros r ?%elem_of_nil. }
  unfold crawl_run. destruct urls as [|first urls'].
  { destruct Hnil as [_ (trace & ? & ?)]. exists trace. by split_and!. }
  unfold_M. destruct (urlparse_netloc first) as [base|]; simpl.
  2:{ destruct Hnil as [_ (trace & ? & ?)]. exists trace. by split_and!. }
  pose proof (crawl_loop_flat fuel base translate_to (first :: urls') (log ps)
                {| visited := ∅; documents := []; queue := first :: urls' |} ps)
    as Hrun.
  destruct (crawl_loop fuel base false translate_to _ ps) as [[c|e] ps'].
  - destruct Hrun as [Hq (trace & ? & ?)].
    { split; [done|]. by destruct Hnil. }
    exists trace. split_and!; [done..|]. by intros c' [= <-].
  - destruct Hrun as [_ (trace & ? & ?)].
    { split; [done|]. by destruct Hnil. }
    exists trace. by split_and!.
Qed.

(** The callers after a sitemap with entries was found: both crawl that
    list; [load_api_reference_documents] does so without link-following,
    [load_documents_from_sources] with the [--recursive] flag as given. *)
Lemma callers_with_sitemap fuel args first more ps sitemap_urls ps1 :
  arg_urls args = first :: more →
  fetch_sitemap_urls first ps = (Ok sitemap_urls, ps1) →
  sitemap_urls ≠ [] →
  load_api_reference_documents fuel first ps
  = try_except (crawl_and_scrape_locs fuel sitemap_urls false None)
      except_Exception (ret (Some [])) ps1
  ∧ load_documents_from_sources fuel args ps
    = (web ← crawl_and_scrape_locs fuel sitemap_urls (arg_recursive args)
               (arg_translate_to args);
       extend_with_pdfs args web) ps1.
Proof.
  intros Hurls Hsitemap Hne.
  unfold load_api_reference_documents, load_documents_from_sources.
  rewrite Hurls. unfold_M. rewrite Hsitemap.
  by destruct sitemap_urls.
Qed.

End Sitemap.

(** ** Termination on a finite link graph *)

Lemma unvisited_shrinks (domain : list string) (u : string) (seen : gset string) :
  u ∈ domain → u ∉ seen →
  (size (list_to_set domain ∖ ({[u]} ∪ seen) : gset string)
   < size (list_to_set domain ∖ seen : gset string))%nat.
Proof.
  intros Hdom Hnew. apply subset_size. split.
  - intros v. rewrite !elem_of_difference, elem_of_union. tauto.
  - intros Hsub. assert (u ∈ (list_to_set domain ∖ seen : gset string)) as Hin.
    { apply elem_of_difference. split; [by apply elem_of_list_to_set|done]. }
    apply Hsub, elem_of_difference in Hin as [_ Hin].
    by apply Hin, elem_of_union_l, elem_of_singleton.
Qed.

Lemma if_true_eq {A} (b : bool) (x y : A) : b = true → (if b then x else y) = x.
Proof. by intros ->. Qed.

Lemma if_false_eq {A} (b : bool) (x y : A) : b = false → (if b then x else y) = y.
Proof. by intros ->. Qed.

Section FiniteSite.
Context `{Platform}.

Variable site : string → option Body.
Variable domain : list string.
Variable urls : list string.
Variable base : string.
Variable recursive : bool.
Variable translate_to : option string.

(** Every request for [u] is answered as [site] says; the input URLs and
    the links of in-scope pages stay within [domain]; [urlparse] accepts the
    URLs of the domain that reach it and [urljoin] the links of its pages. *)
Hypothesis static : ∀ u w,
  (requests_get u w).1
  = match site u with Some content => Ok content | None => Raise RequestException end.
Hypothesis urls_in_domain : ∀ u, u ∈ urls → u ∈ domain.
Hypothesis domain_parses : ∀ u,
  u ∈ domain → ignored u = false → is_Some (urlparse_netloc u).
Hypothesis links_in_domain : ∀ u content,
  recursive = true → u ∈ domain → in_scope base u → site u = Some content →
  is_Some (absolute_links u content) ∧ ∀ v, v ∈ links_of site u → v ∈ domain.

Lemma process_url_static u ps :
  ∃ doc ps1,
    process_url u translate_to ps = (Ok doc, ps1)
    ∧ match doc with
      | Some d => url d = u ∧ is_Some (site u)
      | None => site u = None
      end.
Proof.
  pose proof (static u (world ps)) as Hget.
  destruct (site u) as [content|] eqn:Hsite.
  - destruct (process_url_fetched u translate_to ps content Hget)
      as (page_text & ps1 & Hp & _).
    exists (Some {| text := page_text; url := u |}), ps1. by split.
  - exists None. eexists. split; [by apply process_url_failed|done].
Qed.

Lemma harvest_links_static u seen rest ps :
  recursive = true → u ∈ domain → in_scope base u →
  ∃ ps1, harvest_links u seen rest ps
         = (Ok (rest ++ filter (λ v, v ∉ seen) (links_of site u)), ps1).
Proof.
  intros Hrec Hdom Hscope. unfold harvest_links, links_of. unfold_M.
  rewrite http_get_eq, static.
  destruct (site u) as [content|] eqn:Hsite; simpl.
  - destruct (links_in_domain u content Hrec Hdom Hscope Hsite) as [[ls Hls] _].
    rewrite Hls. simpl. by eexists.
  - rewrite app_nil_r. by eexists.
Qed.

(** One iteration on the static site: it does not raise, it keeps the
    invariant, and either it only drops the head of the queue or it adds
    the head, a URL of the domain, to the visited set. *)
Lemma loop_body_static c ps u rest :
  site_inv site domain urls base recursive c → queue c = u :: rest →
  ∃ c' ps',
    loop_body base recursive translate_to c ps = (Ok c', ps')
    ∧ site_inv site domain urls base recursive c'
    ∧ ((visited c' = visited c ∧ queue c' = rest)
       ∨ ((u ∉ visited c) ∧ u ∈ domain ∧ visited c' = {[u]} ∪ visited c)).
Proof.
  intros [Hq Hv Hd Hu Hl] Hqueue. unfold loop_body. rewrite Hqueue.
  assert (reachable site urls base recursive u ∧ u ∈ domain) as [Hreach Hdom].
  { apply Hq. rewrite Hqueue. by left. }
  assert (∀ v, v ∈ queue c → v = u ∨ v ∈ rest) as Hsplit.
  { intros v. rewrite Hqueue. by intros ?%elem_of_cons. }
  assert (¬ in_scope base u ∨ u ∈ visited c →
          site_inv site domain urls base recursive {| visited := visited c; documents := documents c;
                      queue := rest |}) as Hskip.
  { intros Hout. split; simpl; [|done..| |].
    - intros v Hin. apply Hq. rewrite Hqueue. by right.
    - intros v Hin Hs. destruct (Hu v Hin Hs) as [?|[->|?]%Hsplit]; [by left| |by right].
      destruct Hout; [done|by left].
    - intros w v Hrec Hw Hin Hs.
      destruct (Hl w v Hrec Hw Hin Hs) as [?|[->|?]%Hsplit]; [by left| |by right].
      destruct Hout; [done|by left]. }
  destruct (bool_decide (u ∈ visited c) || ignored u) eqn:Hcond.
  { eexists _, _. split_and!; [done| |by left].
    apply Hskip. apply orb_true_iff in Hcond as [?%bool_decide_eq_true|Hign];
      [by right|left]. intros [Hi _]. congruence. }
  apply orb_false_iff in Hcond as [Hnew%bool_decide_eq_false Hign].
  destruct (domain_parses u Hdom Hign) as [n Hn]. unfold_M. rewrite Hn. simpl.
  case_bool_decide as Hbase.
  { eexists _, _. split_and!; [done| |by left].
    apply Hskip. left. intros [_ Hi]. congruence. }
  subst n. assert (in_scope base u) as Hscope by done.
  destruct (process_url_static u ps) as (doc & ps1 & -> & Hdoc).
  set (seen := {[u]} ∪ visited c).
  assert (∃ ps2 more,
    (if recursive then harvest_links u seen rest else λ ps0, (Ok rest, ps0)) ps1
    = (Ok (rest ++ more), ps2)
    ∧ (∀ v, v ∈ more → recursive = true ∧ v ∈ links_of site u)
    ∧ (∀ v, recursive = true → v ∈ links_of site u → v ∈ seen ∨ v ∈ more))
    as (ps2 & more & -> & Hmore & Hall).
  { destruct (decide (recursive = true)) as [Hrec|Hrec].
    - destruct (harvest_links_static u seen rest ps1 Hrec Hdom Hscope)
        as [ps2 Hharvest].
      rewrite (if_true_eq _ _ _ Hrec), Hharvest.
      eexists _, _. split_and!; [done| |].
      + by intros v [_ ?]%list_elem_of_filter.
      + intros v _ Hin. destruct (decide (v ∈ seen)); [by left|right].
        by apply list_elem_of_filter.
    - apply not_true_is_false in Hrec. rewrite (if_false_eq _ _ _ Hrec).
      exists ps1, []. rewrite app_nil_r. split_and!; [done| |congruence].
      by intros v ?%elem_of_nil. }
  eexists _, _. split_and!; [done| |right; by split_and!].
  split; simpl.
  - intros v [Hin|Hin]%elem_of_app.
    + apply Hq. rewrite Hqueue. by right.
    + destruct (Hmore v Hin) as [Hrec Hlink].
      split; [by eapply reach_link|].
      destruct (site u) as [content|] eqn:Hsite.
      * by eapply (links_in_domain u content).
      * unfold links_of in Hlink. rewrite Hsite in Hlink.
        by apply elem_of_nil in Hlink.
  - intros v [->%elem_of_singleton|Hin]%elem_of_union; [done|by apply Hv].
  - intros v. unfold seen. rewrite elem_of_union, elem_of_singleton.
    destruct doc as [d|].
    + destruct Hdoc as [Hurl Hsome].
      rewrite fmap_app, elem_of_app, list_fmap_singleton, list_elem_of_singleton,
        Hd, Hurl.
      split; [intros [[? ?]| ->]; auto|intros [[->|?] ?]; auto].
    + rewrite Hd. split; [intros [? ?]; auto|].
      intros [[->|?] Hsome]; [|auto].
      rewrite Hdoc in Hsome. by destruct Hsome.
  - intros v Hin Hs. unfold seen. rewrite elem_of_union, elem_of_singleton, elem_of_app.
    destruct (Hu v Hin Hs) as [?|[->|?]%Hsplit]; eauto.
  - intros w v Hrec [->%elem_of_singleton|Hw]%elem_of_union Hin Hs.
    + rewrite elem_of_app. destruct (Hall v Hrec Hin); eauto.
    + unfold seen. rewrite elem_of_union, elem_of_singleton, elem_of_app.
      destruct (Hl w v Hrec Hw Hin Hs) as [?|[->|?]%Hsplit]; eauto.
Qed.

(** The loop ends: from every state that satisfies the invariant some
    number of iterations empties the queue, without raising. *)
Lemma crawl_loop_terminates n :
  ∀ c ps, site_inv site domain urls base recursive c →
    (size (list_to_set domain ∖ visited c : gset string) ≤ n)%nat →
    ∃ fuel c' ps',
      crawl_loop fuel base recursive translate_to c ps = (Ok c', ps')
      ∧ queue c' = [] ∧ site_inv site domain urls base recursive c'.
Proof.
  induction n as [n IHn] using lt_wf_ind. intros c.
  remember (queue c) as pending eqn:Hpending.
  revert c Hpending. induction pending as [|u rest IHrest]; intros c Hq ps Hinv Hsize.
  { exists 0, c, ps. by split_and!. }
  destruct (loop_body_static c ps u rest Hinv (eq_sym Hq))
    as (c1 & ps1 & Hstep & Hinv1 & [[Hsame Hrest]|(Hnew & Hdom & Hgrow)]).
  - destruct (IHrest c1 (eq_sym Hrest) ps1 Hinv1) as (fuel & c' & ps' & Hrun & ?);
      [by rewrite Hsame|].
    exists (S fuel), c', ps'. split; [|done]. simpl. unfold_M. by rewrite Hstep.
  - pose proof (unvisited_shrinks domain u (visited c) Hdom Hnew) as Hlt.
    destruct (IHn (size (list_to_set domain ∖ visited c1 : gset string)))
      with (c := c1) (ps := ps1) as (fuel & c' & ps' & Hrun & ?);
      [rewrite Hgrow; lia|done|done|].
    exists (S fuel), c', ps'. split; [|done]. simpl. unfold_M. by rewrite Hstep.
Qed.

Lemma site_inv_start : 
  site_inv site domain urls base recursive {| visited := ∅; documents := []; queue := urls |}.
Proof.
  split; simpl.
  - intros u Hu. split; [by apply reach_seed|by apply urls_in_domain].
  - by intros u ?%elem_of_empty.
  - intros u. split; [by intros ?%elem_of_nil|by intros [?%elem_of_empty _]].
  - by right.
  - by intros u v _ ?%elem_of_empty.
Qed.

(** With an empty queue the visited set holds every in-scope URL the crawl
    can come across. *)
Lemma reachable_visited c v :
  site_inv site domain urls base recursive c → queue c = [] → reachable site urls base recursive v → in_scope base v → v ∈ visited c.
Proof.
  intros [_ _ _ Hu Hl] Hq Hreach. induction Hreach as [v Hin|u v Hrec Hreach IH Hs Hin];
    intros Hscope.
  - destruct (Hu v Hin Hscope) as [?|Hin']; [done|].
    rewrite Hq in Hin'. by apply elem_of_nil in Hin'.
  - destruct (Hl u v Hrec (IH Hs) Hin Hscope) as [?|Hin']; [done|].
    rewrite Hq in Hin'. by apply elem_of_nil in Hin'.
Qed.

End FiniteSite.

(** ** Order, bounds and the shape of one iteration *)

Section CrawlOrder.
Context `{Platform}.

Lemma harvest_links_appends u seen rest ps q ps' :
  harvest_links u seen rest ps = (Ok q, ps') → ∃ more, q = rest ++ more.
Proof.
  unfold harvest_links. unfold_M. rewrite http_get_eq.
  destruct (requests_get u (world ps)) as [[content|e] w]; simpl.
  - destruct (absolute_links u content) as [links|]; simpl; [|done].
    intros [= <- _]. by eexists.
  - destruct (except_RequestException e); [|done].
    intros [= <- _]. exists []. by rewrite app_nil_r.
Qed.

(** What one iteration does to a state with [u] at the head of the queue:
    it drops [u], or raises ValueError on it, or visits it. *)
Lemma loop_body_step base recursive translate_to c ps u rest :
  queue c = u :: rest →
  loop_body base recursive translate_to c ps
  = (Ok {| visited := visited c; documents := documents c; queue := rest |}, ps)
  ∨ loop_body base recursive translate_to c ps = (Raise ValueError, ps)
  ∨ ((u ∉ visited c) ∧ in_scope base u
     ∧ ∃ trace,
         log (loop_body base recursive translate_to c ps).2
         = log ps ++ {| why := Content; target := u |} :: trace
         ∧ match (loop_body base recursive translate_to c ps).1 with
           | Ok c' =>
               visited c' = {[u]} ∪ visited c
               ∧ (∃ new, documents c' = documents c ++ new
                         ∧ (new = [] ∨ ∃ page_text, new = [{| text := page_text; url := u |}]))
               ∧ ∃ more, queue c' = rest ++ more ∧ (recursive = false → more = [])
           | Raise _ => True
           end).
Proof.
  intros Hq. unfold loop_body. rewrite Hq.
  destruct (bool_decide (u ∈ visited c) || ignored u) eqn:Hskip; [by left|].
  apply orb_false_iff in Hskip as [Hu%bool_decide_eq_false Hign].
  unfold_M. destruct (urlparse_netloc u) as [n|] eqn:Hn; [simpl|by right; left].
  case_bool_decide as Hbase; [by left|]. subst n.
  right. right. split_and!; [done..|].
  pose proof (process_url_log u translate_to ps) as Hlog1.
  destruct (process_url u translate_to ps) as [[doc|e] ps1] eqn:Hp; simpl in *.
  2:{ exists []. by split. }
  assert (∃ new, match doc with
                 | Some d => documents c ++ [d]
                 | None => documents c
                 end = documents c ++ new
                 ∧ (new = [] ∨ ∃ page_text, new = [{| text := page_text; url := u |}]))
    as Hnew.
  { destruct doc as [[page_text v]|].
    - apply process_url_document in Hp. simpl in Hp. subst v.
      exists [{| text := page_text; url := u |}]. split; [done|]. right. by eexists.
    - exists []. split; [by rewrite app_nil_r|by left]. }
  destruct recursive.
  - pose proof (harvest_links_log u ({[u]} ∪ visited c) rest ps1) as Hlog2.
    destruct (harvest_links u ({[u]} ∪ visited c) rest ps1) as [[q|e] ps2] eqn:Hh;
      simpl in *.
    + exists [{| why := Links; target := u |}].
      split; [by rewrite Hlog2, Hlog1, <- app_assoc|].
      split_and!; [done..|].
      destruct (harvest_links_appends _ _ _ _ _ _ Hh) as [more ->].
      by exists more.
    + exists [{| why := Links; target := u |}].
      split; [by rewrite Hlog2, Hlog1, <- app_assoc|done].
  - exists []. split; [done|]. split_and!; [done..|].
    exists []. by rewrite app_nil_r.
Qed.

(** The Documents follow the order of the content requests. *)
Definition in_fetch_order (l0 : list request) (c : Crawl) (ps : PState) : Prop :=
  ∃ trace, log ps = l0 ++ trace
           ∧ url <$> documents c `sublist_of` fetches Content trace.

Lemma loop_body_in_fetch_order base recursive translate_to l0 c ps c' ps' :
  in_fetch_order l0 c ps →
  loop_body base recursive translate_to c ps = (Ok c', ps') →
  in_fetch_order l0 c' ps'.
Proof.
  intros (trace & Hlog & Hsub) Hstep.
  destruct (queue c) as [|u rest] eqn:Hq.
  { unfold loop_body in Hstep. rewrite Hq in Hstep. injection Hstep as <- <-.
    by exists trace. }
  destruct (loop_body_step base recursive translate_to c ps u rest Hq)
    as [Hs|[Hs|(_ & _ & tr & Hlog' & Hshape)]];
    rewrite Hstep in *; simpl in *.
  - injection Hs as -> ->. by exists trace.
  - discriminate Hs.
  - destruct Hshape as (_ & (new & Hdocs & Hnew) & _).
    exists (trace ++ {| why := Content; target := u |} :: tr).
    split; [by rewrite Hlog', Hlog, <- app_assoc|].
    rewrite Hdocs, fmap_app, fetches_app. apply sublist_app; [done|].
    change ({| why := Content; target := u |} :: tr)
      with ([{| why := Content; target := u |}] ++ tr).
    rewrite fetches_app, fetches_one. simpl.
    destruct Hnew as [->|[page_text ->]]; simpl.
    + apply sublist_nil_l.
    + apply sublist_skip, sublist_nil_l.
Qed.

Lemma crawl_loop_in_fetch_order fuel base recursive translate_to l0 c ps c' ps' :
  in_fetch_order l0 c ps →
  crawl_loop fuel base recursive translate_to c ps = (Ok c', ps') →
  in_fetch_order l0 c' ps'.
Proof.
  revert c ps. induction fuel as [|fuel IH]; intros c ps Hinv; simpl.
  { by intros [= <- <-]. }
  unfold_M.
  destruct (loop_body base recursive translate_to c ps) as [[c1|e] ps1] eqn:Hstep;
    [|done].
  apply IH. by eapply loop_body_in_fetch_order.
Qed.

(** X1. The Documents of a crawl are in the order in which their pages were
    fetched: the list of their URLs is a subsequence of the list of content
    requests the crawl made. *)
Theorem documents_in_fetch_order fuel urls recursive translate_to ps c ps' :
  crawl_run fuel urls recursive translate_to ps = (Ok c, ps') →
  ∃ trace, log ps' = log ps ++ trace
           ∧ url <$> documents c `sublist_of` fetches Content trace.
Proof.
  unfold crawl_run. destruct urls as [|first urls']; [done|].
  unfold_M. destruct (urlparse_netloc first) as [base|]; [simpl|done].
  apply crawl_loop_in_fetch_order.
  exists []. split; [by rewrite app_nil_r|apply sublist_nil_l].
Qed.

(** A crawl that does not follow links works through its input list from
    the front: after [fuel] iterations a prefix [done] of the queue is gone,
    and the new Documents belong to URLs of that prefix, in its order. *)
Lemma crawl_loop_flat_prefix fuel base translate_to c ps c' ps' :
  crawl_loop fuel base false translate_to c ps = (Ok c', ps') →
  ∃ done new,
    queue c = done ++ queue c'
    ∧ (length done = fuel ∨ queue c' = [])
    ∧ url <$> documents c' = (url <$> documents c) ++ new
    ∧ new `sublist_of` done.
Proof.
  revert c ps. induction fuel as [|fuel IH]; intros c ps; simpl.
  { intros [= <- <-]. exists [], []. rewrite app_nil_r. split_and!; try done.
    by left. }
  unfold_M.
  destruct (loop_body base false translate_to c ps) as [[c1|e] ps1] eqn:Hstep;
    [|done].
  intros Hrun. destruct (IH c1 ps1 Hrun) as (done & new & Hq1 & Hlen & Hdocs & Hsub).
  destruct (queue c) as [|u rest] eqn:Hq.
  { unfold loop_body in Hstep. rewrite Hq in Hstep. injection Hstep as <- <-.
    rewrite Hq in Hq1. symmetry in Hq1. apply app_eq_nil in Hq1 as [-> Hq1].
    exists [], new. split_and!; try done. by right. }
  assert (queue c1 = rest
          ∧ ∃ mine, url <$> documents c1 = (url <$> documents c) ++ mine
                    ∧ mine `sublist_of` [u]) as [Hrest (mine & Hmine & Hsub1)].
  { destruct (loop_body_step base false translate_to c ps u rest Hq)
      as [Hs|[Hs|(_ & _ & tr & _ & Hshape)]]; rewrite Hstep in *; simpl in *.
    - injection Hs as -> _. split; [done|]. exists []. rewrite app_nil_r.
      split; [done|apply sublist_nil_l].
    - discriminate Hs.
    - destruct Hshape as (_ & (added & Hdocs1 & Hadded) & more & Hmore & Hnone).
      rewrite (Hnone eq_refl), app_nil_r in Hmore. split; [done|].
      rewrite Hdocs1, fmap_app. eexists. split; [done|].
      destruct Hadded as [->|[page_text ->]]; simpl;
        [apply sublist_nil_l|by apply sublist_skip]. }
  exists (u :: done), (mine ++ new). split_and!.
  - by rewrite <- app_comm_cons, <- Hq1, Hrest.
  - destruct Hlen as [<-|?]; [by left|by right].
  - by rewrite Hdocs, Hmine, <- app_assoc.
  - change (u :: done) with ([u] ++ done). by apply sublist_app.
Qed.

(** X2. Without link-following the crawl needs no more iterations than it
    has input URLs: bounded by the length of the list, the loop has ended
    unless it raised, every Document belongs to an input URL, and the
    Documents come in the order of the input list. *)
Theorem flat_crawl_ends_within_its_input fuel urls translate_to ps c ps' :
  crawl_run fuel urls false translate_to ps = (Ok c, ps') →
  (length urls ≤ fuel)%nat →
  queue c = []
  ∧ crawl_and_scrape fuel urls false translate_to ps = (Ok (Some (documents c)), ps')
  ∧ url <$> documents c `sublist_of` urls.
Proof.
  intros Hrun Hfuel.
  pose proof (crawl_and_scrape_run _ _ _ _ _ _ _ Hrun) as Hcall.
  unfold crawl_run in Hrun. destruct urls as [|first urls']; [done|].
  unfold_M. destruct (urlparse_netloc first) as [base|]; [simpl in Hrun|done].
  destruct (crawl_loop_flat_prefix _ _ _ _ _ _ _ Hrun)
    as (done & new & Hq & Hlen & Hdocs & Hsub). simpl in *.
  assert (queue c = []) as Hend.
  { destruct Hlen as [Hlen|?]; [|done].
    apply (f_equal length) in Hq. rewrite length_app in Hq. simpl in *.
    apply length_zero_iff_nil. lia. }
  rewrite Hend in *. rewrite app_nil_r in Hq. subst done. rewrite Hdocs.
  by split_and!.
Qed.

End CrawlOrder.

(** ** More on translation, scraping and the callers *)

Section Scraping.
Context `{Platform}.

Lemma translate_text_with_client text lang ps c :
  translate_client ps = Some c →
  translate_text text lang ps
  = (Ok (translated text (client_translate c text lang (world ps)).1),
     {| world := (client_translate c text lang (world ps)).2;
        translate_client := Some c; log := log ps |}).
Proof.
  intros Hc.
  unfold translate_text, ensure_translate_client, read_translate_client,
    call_translate.
  unfold_M. simpl. rewrite Hc.
  destruct (client_translate c text lang (world ps)) as [[s|e] w]; simpl;
    by rewrite Hc.
Qed.

Lemma translate_text_first_call text lang ps c :
  translate_client ps = None →
  (new_Client (world ps)).1 = Ok c →
  translate_text text lang ps
  = (Ok (translated text (client_translate c text lang (new_Client (world ps)).2).1),
     {| world := (client_translate c text lang (new_Client (world ps)).2).2;
        translate_client := Some c; log := log ps |}).
Proof.
  intros Hnone Hnew.
  unfold translate_text, ensure_translate_client, read_translate_client,
    call_new_Client, set_translate_client, call_translate.
  unfold_M. simpl. rewrite Hnone.
  destruct (new_Client (world ps)) as [r w]. simpl in *. subst r. simpl.
  by destruct (client_translate c text lang w) as [[s|e] w1].
Qed.

(** X4. The translation client is created on the first call and reused
    after that: starting without a client, two calls of [translate_text]
    make one call of [translate.Client()] and then one translation call
    each, with the same client, and each returns what its call answered (or
    its input, when the call raised). *)
Theorem translate_client_created_once text1 lang1 text2 lang2 ps c :
  translate_client ps = None →
  (new_Client (world ps)).1 = Ok c →
  let call1 := client_translate c text1 lang1 (new_Client (world ps)).2 in
  let call2 := client_translate c text2 lang2 call1.2 in
  ∃ ps1 ps2,
    translate_text text1 lang1 ps = (Ok (translated text1 call1.1), ps1)
    ∧ translate_client ps1 = Some c ∧ world ps1 = call1.2
    ∧ translate_text text2 lang2 ps1 = (Ok (translated text2 call2.1), ps2)
    ∧ translate_client ps2 = Some c ∧ world ps2 = call2.2.
Proof.
  intros Hnone Hnew call1 call2.
  eexists _, _. split; [by apply translate_text_first_call|].
  split; [done|]. split; [done|].
  split; [by apply translate_text_with_client|]. by split.
Qed.

(** X5. A client that could not be created is not remembered: the call
    returns its input, the global stays unset, and the next call tries to
    create the client again, translating when that succeeds. *)
Theorem failed_client_creation_is_retried text lang ps e :
  translate_client ps = None →
  (new_Client (world ps)).1 = Raise e →
  ∃ ps1,
    translate_text text lang ps = (Ok text, ps1)
    ∧ translate_client ps1 = None
    ∧ world ps1 = (new_Client (world ps)).2
    ∧ ∀ text' c,
        (new_Client (world ps1)).1 = Ok c →
        (translate_text text' lang ps1).1
        = Ok (translated text'
                (client_translate c text' lang (new_Client (world ps1)).2).1).
Proof.
  intros Hnone Hnew.
  assert (translate_text text lang ps
          = (Ok text, {| world := (new_Client (world ps)).2;
                         translate_client := None; log := log ps |})) as Hcall.
  { unfold translate_text, ensure_translate_client, read_translate_client,
      call_new_Client, set_translate_client, call_translate.
    unfold_M. simpl. rewrite Hnone.
    destruct (new_Client (world ps)) as [r w]. simpl in *. subst r. simpl.
    by rewrite Hnone. }
  eexists. split; [exact Hcall|]. split_and!; [done..|].
  intros text' c Hc. by rewrite (translate_text_first_call text' lang _ c).
Qed.


(** X7. [fetch_sitemap_urls] calls [requests.get] once, for
    [urljoin(base_url, "sitemap.xml")], and returns the text of the [<loc>]
    elements of the answer as the parser gives it, in document order, a
    [None] for an empty element included.  A RequestException or a
    ParseError, of the fetch or of the parser, gives the empty list; any
    other exception of the fetch or of the parser (ValueError or
    LookupError for an encoding it cannot read) is raised again; and when
    [urljoin] raises, no request is made. *)
Theorem fetch_sitemap_urls_outcomes base_url ps :
  let handled (e : exn) : result (list (option string)) :=
    if decide (e = RequestException ∨ e = ParseError) then Ok [] else Raise e in
  match urljoin base_url "sitemap.xml" with
  | None => fetch_sitemap_urls base_url ps = (Raise ValueError, ps)
  | Some sitemap_url =>
      fetch_sitemap_urls base_url ps
      = (match (requests_get sitemap_url (world ps)).1 with
         | Ok content =>
             match sitemap_locs content with
             | Ok locs => Ok locs
             | Raise e => handled e
             end
         | Raise e => handled e
         end,
         requested Sitemap sitemap_url (requests_get sitemap_url (world ps)).2 ps)
  end.
Proof.
  intros handled. unfold handled, fetch_sitemap_urls. unfold_M.
  destruct (urljoin base_url "sitemap.xml") as [sitemap_url|]; [simpl|done].
  rewrite http_get_eq.
  destruct (requests_get sitemap_url (world ps)) as [[content|e] w]; simpl.
  - destruct (sitemap_locs content) as [[|u urls]|e]; simpl; try done.
    unfold except_Request_or_Parse. by destruct e.
  - unfold except_Request_or_Parse. by destruct e.
Qed.
End Scraping.

Section Callers.
Context `{Platform}.

Lemma fetch_sitemap_urls_log base_url sitemap_url ps :
  urljoin base_url "sitemap.xml" = Some sitemap_url →
  log (fetch_sitemap_urls base_url ps).2
  = log ps ++ [{| why := Sitemap; target := sitemap_url |}].
Proof.
  intros Hjoin. unfold fetch_sitemap_urls. unfold_M. rewrite Hjoin. simpl.
  rewrite http_get_eq.
  destruct (requests_get sitemap_url (world ps)) as [[content|e] w]; simpl.
  - destruct (sitemap_locs content) as [locs|e]; simpl; [done|].
    by destruct (except_Request_or_Parse e).
  - by destruct (except_Request_or_Parse e).
Qed.

(** The requests of a crawl together with the base domain they belong to;
    a crawl that could not determine its base domain has made none. *)
Lemma crawl_run_trace fuel urls recursive translate_to ps :
  ∃ trace,
    log (crawl_run fuel urls recursive translate_to ps).2 = log ps ++ trace
    ∧ (trace = []
       ∨ ∃ first base seen,
           head urls = Some first ∧ urlparse_netloc first = Some base
           ∧ trace_ok base seen trace).
Proof.
  unfold crawl_run. destruct urls as [|first urls'].
  { exists []. split; [by rewrite app_nil_r|by left]. }
  unfold_M. destruct (urlparse_netloc first) as [base|] eqn:Hbase; simpl.
  2:{ exists []. split; [by rewrite app_nil_r|by left]. }
  pose proof (crawl_loop_inv fuel base recursive translate_to (log ps) _ ps
                (crawl_inv_start base ps (first :: urls'))) as Hrun.
  destruct (crawl_loop fuel base recursive translate_to _ ps) as [[c|e] ps'].
  - destruct Hrun as [(trace & Hlog & Hok) _ _].
    exists trace. split; [done|]. right. by exists first, base, (visited c).
  - destruct Hrun as (trace & seen & Hlog & Hok).
    exists trace. split; [done|]. right. by exists first, base, seen.
Qed.

(** X22. Every call of [requests.get] that a crawl makes, for content or
    for links, has as its argument a URL whose netloc is that of the first
    input URL, whether the crawl ends, is still running or is aborted.
    (Where the library goes from there, following redirects, and what the
    translation client contacts are not calls of the crawl and are not
    covered.) *)
Theorem requests_stay_on_the_base_domain fuel urls recursive translate_to ps first :
  head urls = Some first →
  ∃ trace,
    log (crawl_run fuel urls recursive translate_to ps).2 = log ps ++ trace
    ∧ ∀ r, r ∈ trace → urlparse_netloc (target r) = urlparse_netloc first.
Proof.
  intros Hfirst.
  destruct (crawl_run_trace fuel urls recursive translate_to ps)
    as (trace & Hlog & [->|(first' & base & seen & Hhead & Hbase & Hok)]).
  { exists []. split; [done|]. by intros r ?%elem_of_nil. }
  exists trace. split; [done|].
  rewrite Hfirst in Hhead. injection Hhead as <-. rewrite Hbase.
  destruct Hok as [_ _ Hcs Hls Hsm Hsc].
  intros [p u] Hr%elem_of_fetches. simpl. destruct p.
  - rewrite Hsm in Hr. by apply elem_of_nil in Hr.
  - by apply Hcs, Hsc in Hr as [_ ?].
  - by apply Hls, Hsc in Hr as [_ ?].
Qed.

(** The requests of a crawl, whatever its outcome. *)
Lemma crawl_and_scrape_trace fuel urls recursive translate_to ps :
  ∃ trace base seen,
    log (crawl_and_scrape fuel urls recursive translate_to ps).2 = log ps ++ trace
    ∧ trace_ok base seen trace.
Proof.
  pose proof (crawl_run_inv fuel urls recursive translate_to ps) as Hinv.
  unfold crawl_and_scrape. unfold_M.
  destruct (crawl_run fuel urls recursive translate_to ps) as [[c|e] ps']; simpl.
  - destruct Hinv as (_ & base & _ & _ & [(trace & Hlog & Hok) _ _]).
    by exists trace, base, (visited c).
  - destruct Hinv as (base & trace & seen & Hlog & Hok).
    by exists trace, base, seen.
Qed.

(** The requests of a crawl on sitemap entries, whatever its outcome. *)
Lemma crawl_and_scrape_locs_trace fuel urls recursive translate_to ps :
  ∃ trace base seen,
    log (crawl_and_scrape_locs fuel urls recursive translate_to ps).2
    = log ps ++ trace
    ∧ trace_ok base seen trace.
Proof.
  destruct (crawl_run_locs_state fuel urls recursive translate_to ps) as [k Hk].
  assert ((crawl_and_scrape_locs fuel urls recursive translate_to ps).2
          = (crawl_run_locs fuel urls recursive translate_to ps).2) as ->.
  { unfold crawl_and_scrape_locs. unfold_M.
    by destruct (crawl_run_locs fuel urls recursive translate_to ps) as [[c|e] ps']. }
  rewrite Hk.
  pose proof (crawl_run_inv k (omap id urls) recursive translate_to ps) as Hinv.
  destruct (crawl_run k (omap id urls) recursive translate_to ps) as [[c|e] ps'];
    simpl.
  - destruct Hinv as (_ & base & _ & _ & [(trace & Hlog & Hok) _ _]).
    by exists trace, base, (visited c).
  - destruct Hinv as (base & trace & seen & Hlog & Hok).
    by exists trace, base, seen.
Qed.

Lemma extend_with_pdfs_log args web ps :
  log (extend_with_pdfs args web ps).2 = log ps.
Proof.
  unfold extend_with_pdfs, call_pdf_load_data. unfold_M.
  destruct web as [documents|]; [|done].
  destruct (arg_pdfs args) as [|file others]; [done|].
  by destruct (pdf_load_data file (world ps)) as [[pdf|e] w].
Qed.

(** X8. The calls of [requests.get] that [load_documents_from_sources]
    makes, whether it returns or raises and whatever the sitemap lists
    (empty [<loc>] elements included): first the one for the sitemap, then
    those of the crawl, among which no URL is requested twice for its
    content or twice for its links, none is a sitemap request and none has
    an argument with an ignore pattern.  These are the calls the script
    makes itself; the traffic inside the libraries it calls (redirects
    followed by [requests], the translation client, the PDF reader) is not
    covered. *)
Theorem requests_of_load_documents_from_sources fuel args first more ps sitemap_url :
  arg_urls args = first :: more →
  urljoin first "sitemap.xml" = Some sitemap_url →
  ∃ trace,
    log (load_documents_from_sources fuel args ps).2
    = log ps ++ {| why := Sitemap; target := sitemap_url |} :: trace
    ∧ NoDup (fetches Content trace)
    ∧ NoDup (fetches Links trace)
    ∧ fetches Sitemap trace = []
    ∧ ∀ r, r ∈ trace → ignored (target r) = false.
Proof.
  intros Hurls Hjoin.
  assert (∀ base seen trace, trace_ok base seen trace →
            NoDup (fetches Content trace) ∧ NoDup (fetches Links trace)
            ∧ fetches Sitemap trace = []
            ∧ ∀ r, r ∈ trace → ignored (target r) = false) as Hshape.
  { intros base seen trace [Hc Hl Hcs Hls Hsm Hsc]. split_and!; try done.
    intros [p u] Hr%elem_of_fetches. simpl. destruct p.
    - rewrite Hsm in Hr. by apply elem_of_nil in Hr.
    - by apply Hcs, Hsc in Hr as [? _].
    - by apply Hls, Hsc in Hr as [? _]. }
  pose proof (fetch_sitemap_urls_log first sitemap_url ps Hjoin) as Hlog1.
  unfold load_documents_from_sources. rewrite Hurls. unfold_M.
  destruct (fetch_sitemap_urls first ps) as [[sitemap_urls|e] ps1]; simpl in *.
  2:{ exists []. rewrite Hlog1. split_and!; try done; try constructor.
      by intros r ?%elem_of_nil. }
  match goal with
  | |- context [crawl_and_scrape_locs fuel ?us ?r ?t ps1] =>
      destruct (crawl_and_scrape_locs_trace fuel us r t ps1)
        as (trace & base & seen & Hlog2 & Hok);
      destruct (crawl_and_scrape_locs fuel us r t ps1) as [[web|e] ps2]
  end; simpl in *.
  - exists trace. rewrite extend_with_pdfs_log, Hlog2, Hlog1, <- app_assoc.
    split; [done|]. by eapply Hshape.
  - exists trace. rewrite Hlog2, Hlog1, <- app_assoc.
    split; [done|]. by eapply Hshape.
Qed.

Lemma load_api_reference_documents_returns fuel u ps :
  ∃ documents ps', load_api_reference_documents fuel u ps = (Ok documents, ps').
Proof.
  unfold load_api_reference_documents. unfold_M.
  destruct (fetch_sitemap_urls u ps) as [[sitemap_urls|e] ps1]; [|by eexists _, _].
  match goal with
  | |- context [crawl_and_scrape_locs fuel ?us ?r ?t ps1] =>
      destruct (crawl_and_scrape_locs fuel us r t ps1) as [[documents|e] ps2]
  end; by eexists _, _.
Qed.

(** X9. [load_api_reference_documents] never raises: whatever the sitemap
    lookup or the crawl raises, [urlparse]'s ValueError and the TypeError
    on an empty [<loc>] included, is turned into the empty list, and the
    Documents scraped before are dropped. *)
Theorem load_api_reference_documents_never_raises fuel u ps :
  ∃ documents ps',
    load_api_reference_documents fuel u ps = (Ok documents, ps')
    ∧ ∀ e sitemap_urls ps1 ps2,
        fetch_sitemap_urls u ps = (Ok sitemap_urls, ps1) →
        crawl_and_scrape_locs fuel
          (match sitemap_urls with [] => [Some u] | _ => sitemap_urls end)
          (match sitemap_urls with [] => true | _ => false end) None ps1
        = (Raise e, ps2) →
        documents = Some [] ∧ ps' = ps2.
Proof.
  unfold load_api_reference_documents. unfold_M.
  destruct (fetch_sitemap_urls u ps) as [[sitemap_urls|e] ps1].
  - match goal with
    | |- context [crawl_and_scrape_locs fuel ?us ?r ?t ps1] =>
        destruct (crawl_and_scrape_locs fuel us r t ps1) as [[documents|e] ps2] eqn:Hc
    end; simpl.
    + eexists _, _. split; [done|]. intros e ? ? ? [= <- <-] Hr.
      rewrite Hc in Hr. discriminate Hr.
    + eexists _, _. split; [done|]. intros e' ? ? ? [= <- <-] Hr.
      rewrite Hc in Hr. by injection Hr as _ <-.
  - simpl. eexists _, _. split; [done|]. by intros e' ? ? ? [=].
Qed.

(** The arguments with every PDF but the first removed. *)
Lemma first_pdf_only (args : Args) :
  ∀ fuel ps,
    load_documents_from_sources fuel args ps
    = load_documents_from_sources fuel
        {| arg_urls := arg_urls args; arg_pdfs := take 1 (arg_pdfs args);
           arg_recursive := arg_recursive args;
           arg_translate_to := arg_translate_to args |} ps.
Proof.
  intros fuel ps. unfold load_documents_from_sources, extend_with_pdfs. simpl.
  by destruct (arg_pdfs args).
Qed.

(** X10. Of the PDFs only the first is read, after the crawl: the result
    and what is left behind are the same with the other PDFs removed from
    the arguments, the documents of the PDF follow those of the crawl, and
    when reading the PDF raises, so does the call. *)
Theorem only_the_first_pdf_is_read fuel args file others ps :
  arg_pdfs args = file :: others →
  load_documents_from_sources fuel args ps
  = load_documents_from_sources fuel
      {| arg_urls := arg_urls args; arg_pdfs := [file];
         arg_recursive := arg_recursive args;
         arg_translate_to := arg_translate_to args |} ps
  ∧ ∀ web ps1,
      load_documents_from_sources fuel
        {| arg_urls := arg_urls args; arg_pdfs := [];
           arg_recursive := arg_recursive args;
           arg_translate_to := arg_translate_to args |} ps
      = (Ok (Some web), ps1) →
      (load_documents_from_sources fuel args ps).1
      = match (pdf_load_data file (world ps1)).1 with
        | Ok pdf_documents => Ok (Some (web ++ pdf_documents))
        | Raise e => Raise e
        end.
Proof.
  intros Hpdfs. split.
  { by rewrite (first_pdf_only args), Hpdfs. }
  intros web ps1. unfold load_documents_from_sources, extend_with_pdfs. simpl.
  rewrite Hpdfs. unfold_M.
  match goal with
  | |- context [match ?m ps with _ => _ end] => destruct (m ps) as [[[docs|]|e] ps2]
  end; simpl; try done.
  intros [= <- <-]. unfold call_pdf_load_data.
  by destruct (pdf_load_data file (world ps2)) as [[pdf|e] w].
Qed.
End Callers.

(** ** Building and querying the index *)

Ltac unfold_job :=
  unfold mbind, Job_bind, mret, Job_ret, job_try, job_bind, job_ret, job_result,
    call, run_M in *.

Section IndexProperties.
Context `{Backend}.

Lemma call_chroma {A} (f : World → result A * World) st :
  chroma (call f st).2 = chroma st.
Proof. unfold call, run_M. by destruct (f (world (process st))). Qed.

Lemma call_result {A} (f : World → result A * World) st :
  (call f st).1 = (f (world (process st))).1
  ∧ world (process (call f st).2) = (f (world (process st))).2.
Proof. unfold call, run_M. by destruct (f (world (process st))). Qed.

Lemma embed_and_index_lookup n documents st k :
  ∃ added,
    chroma (embed_and_index n documents st).2 !! k
    = (if decide (n = k) then (λ entries, entries ++ added) <$> chroma st !! n
       else chroma st !! k)
    ∧ ((embed_and_index n documents st).1 = Ok () →
       ∃ w, added = (index_from_documents documents w).1.2)
    ∧ ((google_auth_default (world (process st))).1 ≠ Ok () → added = []).
Proof.
  unfold embed_and_index. unfold_job.
  destruct (google_auth_default (world (process st))) as [[[]|e] w1] eqn:Hauth; simpl.
  2:{ exists []. split_and!; [|done..]. case_decide as Hk; [subst k|done].
      destruct (chroma st !! n); simpl; [|done]. by rewrite app_nil_r. }
  destruct (new_VertexTextEmbedding w1) as [[[]|e] w2]; simpl.
  2:{ exists []. split_and!; [|done..]. case_decide as Hk; [subst k|done].
      destruct (chroma st !! n); simpl; [|done]. by rewrite app_nil_r. }
  unfold from_documents. simpl.
  destruct (index_from_documents documents w2) as [[r added] w3] eqn:Hindex. simpl.
  exists added. split_and!; [|by intros _; exists w2; rewrite Hindex|done].
  case_decide as Hk; [subst k; by rewrite lookup_alter_eq|by rewrite lookup_alter_ne].
Qed.

Lemma build_and_save_index_steps name documents overwrite st :
  build_and_save_index name documents overwrite st
  = job_bind (call new_PersistentClient) (λ _,
      job_bind (if overwrite then delete_collection (collection_name name)
                else job_ret ()) (λ _,
        job_bind (get_or_create_collection (collection_name name)) (λ _,
          embed_and_index (collection_name name) documents))) st.
Proof. reflexivity. Qed.

(** X11. [build_and_save_index] leaves every collection but its own as it
    was, whether it returns or raises. *)
Theorem build_and_save_index_other_collections name documents overwrite st other :
  other ≠ collection_name name →
  chroma (build_and_save_index name documents overwrite st).2 !! other
  = chroma st !! other.
Proof.
  intros Hne. rewrite build_and_save_index_steps.
  unfold job_bind, job_ret, delete_collection, get_or_create_collection.
  pose proof (call_chroma new_PersistentClient st) as Hc.
  destruct (call new_PersistentClient st) as [[[]|e] st1]; simpl in *; [|by rewrite Hc].
  assert (∀ st2, chroma st2 !! other = chroma st !! other →
            chroma (embed_and_index (collection_name name) documents st2).2 !! other
            = chroma st !! other) as Hlast.
  { intros st2 <-.
    destruct (embed_and_index_lookup (collection_name name) documents st2 other)
      as (added & -> & _). by rewrite decide_False. }
  destruct overwrite; destruct (chroma st1 !! collection_name name) eqn:Hl; simpl;
    destruct (valid_collection_name (collection_name name)); simpl;
    rewrite ?lookup_delete_eq, ?Hl; simpl;
    try (apply Hlast; simpl);
    rewrite ?lookup_insert_ne, ?lookup_delete_ne, ?Hc by done; done.
Qed.

(** X12. With [overwrite] set and no collection of that name yet,
    [build_and_save_index] raises and indexes nothing: the deletion comes
    first and is not guarded, so the database stays as it was. *)
Theorem overwrite_of_a_missing_collection_raises name documents st :
  chroma st !! collection_name name = None →
  ∃ e, (build_and_save_index name documents true st).1 = Raise e
       ∧ chroma (build_and_save_index name documents true st).2 = chroma st.
Proof.
  intros Hnone. rewrite build_and_save_index_steps.
  unfold job_bind, delete_collection.
  pose proof (call_chroma new_PersistentClient st) as Hc.
  destruct (call new_PersistentClient st) as [[[]|e] st1]; simpl in *; [|by exists e].
  rewrite Hc, Hnone. simpl. by eexists.
Qed.

(** X13. When [build_and_save_index] returns, its collection holds the
    entries of this run after those it held before, none of which remain
    when [overwrite] is set; a reader that forms the collection name from
    the same name in any letter case finds exactly these entries. *)
Theorem build_and_save_index_result name documents overwrite st name' :
  (build_and_save_index name documents overwrite st).1 = Ok () →
  lower name' = lower name →
  ∃ w,
    get_collection (collection_name name')
      (build_and_save_index name documents overwrite st).2
    = (Ok ((if overwrite then [] else default [] (chroma st !! collection_name name))
           ++ (index_from_documents documents w).1.2),
       (build_and_save_index name documents overwrite st).2).
Proof.
  intros Hok Hname.
  assert (collection_name name' = collection_name name) as ->
    by (unfold collection_name; by rewrite Hname).
  revert Hok. rewrite build_and_save_index_steps.
  unfold job_bind, job_ret, delete_collection, get_or_create_collection, get_collection.
  pose proof (call_chroma new_PersistentClient st) as Hc.
  destruct (call new_PersistentClient st) as [[[]|e] st1]; simpl in *; [|done].
  assert (∀ st2 prior,
            chroma st2 !! collection_name name = Some prior →
            (embed_and_index (collection_name name) documents st2).1 = Ok () →
            ∃ w, chroma (embed_and_index (collection_name name) documents st2).2
                   !! collection_name name
                 = Some (prior ++ (index_from_documents documents w).1.2)) as Hlast.
  { intros st2 prior Hprior Hok.
    destruct (embed_and_index_lookup (collection_name name) documents st2
                (collection_name name)) as (added & Hl & Hadded & _).
    destruct (Hadded Hok) as [w ->]. exists w.
    by rewrite Hl, decide_True, Hprior. }
  rewrite <- Hc.
  destruct overwrite; destruct (chroma st1 !! collection_name name) as [old|] eqn:Hl;
    simpl; try done;
    destruct (valid_collection_name (collection_name name)); simpl; try done;
    rewrite ?lookup_delete_eq, ?Hl; simpl; intros Hok.
  - edestruct Hlast as [w Hw]; [|exact Hok|]; [by apply lookup_insert_eq|].
    exists w. by rewrite Hw.
  - edestruct Hlast as [w Hw]; [|exact Hok|]; [exact Hl|].
    exists w. by rewrite Hw.
  - edestruct Hlast as [w Hw]; [|exact Hok|]; [by apply lookup_insert_eq|].
    exists w. by rewrite Hw.
Qed.

(** X14. With [overwrite] set the old collection is deleted before it is
    known that a new one can be built: when authentication then fails,
    [build_and_save_index] raises and leaves the collection empty. *)
Theorem overwrite_deletes_before_it_can_rebuild name documents st old e :
  chroma st !! collection_name name = Some old →
  valid_collection_name (collection_name name) = true →
  (new_PersistentClient (world (process st))).1 = Ok () →
  (google_auth_default (new_PersistentClient (world (process st))).2).1 = Raise e →
  (build_and_save_index name documents true st).1 = Raise e
  ∧ chroma (build_and_save_index name documents true st).2 !! collection_name name
    = Some [].
Proof.
  intros Hold Hvalid Hclient Hauth. rewrite build_and_save_index_steps.
  unfold job_bind, delete_collection, get_or_create_collection.
  pose proof (call_chroma new_PersistentClient st) as Hc.
  destruct (call_result new_PersistentClient st) as [Hr Hw].
  destruct (call new_PersistentClient st) as [[[]|e'] st1]; simpl in *;
    [|congruence].
  rewrite Hc, Hold, Hvalid. simpl. rewrite lookup_delete_eq. simpl.
  unfold embed_and_index. unfold_job. simpl. rewrite Hw.
  destruct (google_auth_default (new_PersistentClient (world (process st))).2)
    as [r w1]. simpl in *. subst r. simpl.
  split; [done|]. by rewrite lookup_insert_eq.
Qed.

Lemma build_core_index_steps d documents st :
  build_core_index (d :: documents) st
  = job_bind (call new_PersistentClient) (λ _,
      job_bind list_collections (λ existing_collections,
        job_bind (if bool_decide ("core_knowledge" ∈ existing_collections)
                  then delete_collection "core_knowledge" else job_ret ()) (λ _,
          job_bind (get_or_create_collection "core_knowledge") (λ _,
            embed_and_index "core_knowledge" (d :: documents))))) st.
Proof. reflexivity. Qed.

(** X15. [build_core_index] starts from scratch and guards its deletion:
    run on a database that holds the collection and run on the same
    database with the collection removed, it returns or raises alike, and
    once the client was created it leaves the same database behind; with no
    documents it does nothing at all. *)
Theorem build_core_index_starts_from_scratch documents st :
  let st0 := {| process := process st;
                chroma := delete "core_knowledge" (chroma st) |} in
  (build_core_index documents st).1 = (build_core_index documents st0).1
  ∧ (documents = [] → build_core_index documents st = (Ok (), st))
  ∧ (documents ≠ [] →
     (new_PersistentClient (world (process st))).1 = Ok () →
     build_core_index documents st = build_core_index documents st0).
Proof.
  intros st0. destruct documents as [|d documents].
  { split_and!; [done..|]. by intros []. }
  assert ((new_PersistentClient (world (process st))).1 = Ok () →
          build_core_index (d :: documents) st = build_core_index (d :: documents) st0)
    as Hsame.
  { intros Hclient. rewrite !build_core_index_steps.
    unfold job_bind, job_ret, list_collections, delete_collection,
      get_or_create_collection, call, run_M. simpl.
    destruct (new_PersistentClient (world (process st))) as [r w]. simpl in *.
    subst r. simpl.
    rewrite (bool_decide_eq_false_2 ("core_knowledge" ∈ dom (delete _ (chroma st))))
      by (rewrite elem_of_dom, lookup_delete_eq; by intros [? ?]).
    simpl. rewrite lookup_delete_eq.
    case_bool_decide as Hin; simpl.
    - apply elem_of_dom in Hin as [old Hold]. rewrite Hold. simpl.
      by rewrite lookup_delete_eq.
    - apply not_elem_of_dom in Hin. rewrite Hin.
      by rewrite (delete_id (chroma st) "core_knowledge" Hin). }
  split_and!; [|done|by intros _].
  destruct (new_PersistentClient (world (process st))) as [[[]|e] w] eqn:Hclient.
  - by rewrite Hsame.
  - rewrite !build_core_index_steps. unfold job_bind, call, run_M. simpl.
    by rewrite Hclient.
Qed.

(** X16. When [build_core_index] returns for a non-empty list of
    documents, the collection [core_knowledge] holds the entries of this run
    and nothing of what it held before; the other collections are as they
    were. *)
Theorem build_core_index_result documents st :
  documents ≠ [] →
  (build_core_index documents st).1 = Ok () →
  (∃ w, get_collection "core_knowledge" (build_core_index documents st).2
        = (Ok (index_from_documents documents w).1.2,
           (build_core_index documents st).2))
  ∧ ∀ other, other ≠ "core_knowledge" →
      chroma (build_core_index documents st).2 !! other = chroma st !! other.
Proof.
  intros Hne. destruct documents as [|d documents]; [done|]. clear Hne.
  rewrite build_core_index_steps.
  unfold job_bind, job_ret, list_collections, delete_collection,
    get_or_create_collection, get_collection.
  pose proof (call_chroma new_PersistentClient st) as Hc.
  destruct (call new_PersistentClient st) as [[[]|e] st1]; simpl in *; [|done].
  assert (∀ st2,
            chroma st2 = <["core_knowledge" := []]> (chroma st) →
            (embed_and_index "core_knowledge" (d :: documents) st2).1 = Ok () →
            (∃ w, chroma (embed_and_index "core_knowledge" (d :: documents) st2).2
                    !! "core_knowledge"
                  = Some ((index_from_documents (d :: documents) w).1.2))
            ∧ ∀ other, other ≠ "core_knowledge" →
                chroma (embed_and_index "core_knowledge" (d :: documents) st2).2
                  !! other = chroma st !! other) as Hlast.
  { intros st2 Hst2 Hok. split.
    - destruct (embed_and_index_lookup "core_knowledge" (d :: documents) st2
                  "core_knowledge") as (added & Hl & Hadded & _).
      destruct (Hadded Hok) as [w ->]. exists w.
      by rewrite Hl, decide_True, Hst2, lookup_insert_eq.
    - intros other Hother.
      destruct (embed_and_index_lookup "core_knowledge" (d :: documents) st2 other)
        as (added & -> & _).
      by rewrite decide_False, Hst2, lookup_insert_ne. }
  case_bool_decide as Hin.
  - apply elem_of_dom in Hin as [old Hold]. rewrite Hold. simpl.
    destruct (valid_collection_name "core_knowledge"); [simpl|done].
    rewrite lookup_delete_eq. intros Hok.
    edestruct Hlast as [[w Hw] Hothers]; [|exact Hok|].
    { simpl. by rewrite insert_delete_eq, Hc. }
    split; [|done]. exists w. by rewrite Hw.
  - apply not_elem_of_dom in Hin. simpl.
    destruct (valid_collection_name "core_knowledge"); [simpl|done].
    rewrite Hin. intros Hok.
    edestruct Hlast as [[w Hw] Hothers]; [|exact Hok|].
    { simpl. by rewrite Hc. }
    split; [|done]. exists w. by rewrite Hw.
Qed.

(** X17. [main] of [create_knowledge_base.py] touches the database only
    when documents were loaded: when loading raises, or loads nothing, the
    database is as it was, also with [--overwrite]. *)
Theorem main_without_documents_keeps_the_database fuel name overwrite args st :
  match (load_documents_from_sources fuel args (process st)).1 with
  | Ok (Some (_ :: _)) => True
  | Ok (Some []) =>
      (main fuel name overwrite args st).1 = Ok (Some ())
      ∧ chroma (main fuel name overwrite args st).2 = chroma st
  | Ok None =>
      (main fuel name overwrite args st).1 = Ok None
      ∧ chroma (main fuel name overwrite args st).2 = chroma st
  | Raise e =>
      (main fuel name overwrite args st).1 = Raise e
      ∧ chroma (main fuel name overwrite args st).2 = chroma st
  end.
Proof.
  unfold main. unfold_job.
  by destruct (load_documents_from_sources fuel args (process st))
    as [[[[|d docs]|]|e] ps].
Qed.

Lemma load_confluence_documents_returns base_url space_key st :
  ∃ documents st',
    load_confluence_documents base_url space_key st = (Ok documents, st')
    ∧ chroma st' = chroma st.
Proof.
  unfold load_confluence_documents.
  destruct (truthy (getenv "CONFLUENCE_USERNAME")) as [username|];
    [destruct (truthy (getenv "CONFLUENCE_API_KEY")) as [api_key|]|];
    try (by eexists _, _).
  unfold_job.
  destruct (confluence_load_data base_url username api_key space_key
              (world (process st))) as [[found|e] w]; by eexists _, _.
Qed.

(** X18. [load_confluence_documents] never raises and never touches the
    database; when one of the two credentials is unset or empty it returns
    the empty list without contacting Confluence, and when the reader raises
    it returns the empty list as well. *)
Theorem load_confluence_documents_never_raises base_url space_key st :
  ∃ documents st',
    load_confluence_documents base_url space_key st = (Ok documents, st')
    ∧ chroma st' = chroma st
    ∧ (truthy (getenv "CONFLUENCE_USERNAME") = None
       ∨ truthy (getenv "CONFLUENCE_API_KEY") = None →
       documents = [] ∧ st' = st)
    ∧ ∀ username api_key,
        truthy (getenv "CONFLUENCE_USERNAME") = Some username →
        truthy (getenv "CONFLUENCE_API_KEY") = Some api_key →
        documents
        = match (confluence_load_data base_url username api_key space_key
                   (world (process st))).1 with
          | Ok found => found
          | Raise _ => []
          end.
Proof.
  unfold load_confluence_documents.
  destruct (truthy (getenv "CONFLUENCE_USERNAME")) as [username|];
    [destruct (truthy (getenv "CONFLUENCE_API_KEY")) as [api_key|]|].
  - unfold_job.
    destruct (confluence_load_data base_url username api_key space_key
                (world (process st))) as [[found|e] w] eqn:Hload; simpl.
    + eexists _, _. split_and!; [done..| |].
      * by intros [[=]|[=]].
      * intros ? ? [= <-] [= <-]. by rewrite Hload.
    + eexists _, _. split_and!; [done..| |].
      * by intros [[=]|[=]].
      * intros ? ? [= <-] [= <-]. by rewrite Hload.
  - eexists _, _. split_and!; [done..|]. by intros ? ? _ [=].
  - eexists _, _. split_and!; [done..|]. by intros ? ? [=].
Qed.

(** X23. [main] of [create_core_knowledge_base.py] is not aborted by its
    sources: loading from Confluence returns, leaving the database as it
    was, the crawl of the API reference then returns, and [main] ends as
    [build_core_index] does on the documents of the two, Confluence first,
    in the state the loading left behind.  So an exception of [main] is the
    exception of this run's [build_core_index]; and when both sources give
    nothing, [main] returns and the database is as it was. *)
Theorem core_main_raises_only_when_indexing fuel confluence_url confluence_space
    api_ref_url st :
  ∃ confluence st1 api_reference ps2,
    load_confluence_documents confluence_url confluence_space st = (Ok confluence, st1)
    ∧ chroma st1 = chroma st
    ∧ load_api_reference_documents fuel api_ref_url (process st1)
      = (Ok api_reference, ps2)
    ∧ let st2 := {| process := ps2; chroma := chroma st |} in
      match api_reference with
      | None =>
          core_main fuel confluence_url confluence_space api_ref_url st
          = (Ok None, st2)
      | Some api_reference =>
          core_main fuel confluence_url confluence_space api_ref_url st
          = (match (build_core_index (confluence ++ api_reference) st2).1 with
             | Ok _ => Ok (Some ())
             | Raise e => Raise e
             end,
             (build_core_index (confluence ++ api_reference) st2).2)
          ∧ (confluence ++ api_reference = [] →
             core_main fuel confluence_url confluence_space api_ref_url st
             = (Ok (Some ()), st2))
      end.
Proof.
  unfold core_main. unfold_job.
  destruct (load_confluence_documents_returns confluence_url confluence_space st)
    as (confluence & st1 & Hconfluence & Hchroma).
  rewrite Hconfluence. simpl.
  destruct (load_api_reference_documents_returns fuel api_ref_url (process st1))
    as (api & ps2 & Hapi).
  rewrite Hapi. exists confluence, st1, api, ps2. split_and!; [done..|].
  rewrite Hchroma. destruct api as [api|]; [|done].
  split.
  - by destruct (build_core_index (confluence ++ api)
                   {| process := ps2; chroma := chroma st |}) as [[[]|e] st3].
  - by intros ->.
Qed.

Lemma hits_from_texts (results : QueryResult Distance) texts :
  ∀ i hits, hits_from results i texts = Ok hits → hit_text <$> hits = texts.
Proof.
  induction texts as [|doc_text texts IH]; intros i hits; simpl.
  { by intros [= <-]. }
  destruct (hit_of_result results i doc_text) as [doc|e] eqn:Hhit; [|done].
  destruct (hits_from results (S i) texts) as [documents|e] eqn:Hrest; [|done].
  intros [= <-]. simpl. f_equal; [|by eapply IH].
  unfold hit_of_result, index in Hhit.
  destruct (qr_ids results !! 0) as [ids|]; [|done].
  destruct (ids !! i); [|done].
  destruct (qr_distances results) as [[distances|]|]; [| done |].
  - destruct (distances !! 0) as [row|]; [|done].
    destruct (row !! i); [|done]. by injection Hhit as <-.
  - destruct ([@None Distance] !! i); [|done]. by injection Hhit as <-.
Qed.

Lemma hits_from_ids (results : QueryResult Distance) texts ids :
  qr_ids results !! 0 = Some ids →
  ∀ i hits,
    hits_from results i texts = Ok hits →
    ∀ j h, hits !! j = Some h → ids !! (i + j) = Some (hit_id h).
Proof.
  intros Hids. induction texts as [|doc_text texts IH]; intros i hits; simpl.
  { by intros [= <-] j h ?. }
  destruct (hit_of_result results i doc_text) as [doc|e] eqn:Hhit; [|done].
  destruct (hits_from results (S i) texts) as [documents|e] eqn:Hrest; [|done].
  intros [= <-] [|j] h; simpl.
  - intros [= <-]. rewrite Nat.add_0_r.
    unfold hit_of_result, index in Hhit. rewrite Hids in Hhit.
    destruct (ids !! i) as [id|]; [|done].
    destruct (qr_distances results) as [[distances|]|]; [| done |].
    + destruct (distances !! 0) as [row|]; [|done].
      destruct (row !! i); [|done]. by injection Hhit as <-.
    + destruct ([@None Distance] !! i); [|done]. by injection Hhit as <-.
  - intros Hj. replace (i + S j) with (S i + j) by lia. by eapply IH.
Qed.

(** X19. When the conversion of a query result succeeds, there is one
    Document for each text of the first row of the result, in the order of
    the row and with the text unchanged, and the [i]-th Document carries
    the [i]-th id of the first row of ids; a result without texts gives no
    Document. *)
Theorem result_documents_follow_the_result (results : QueryResult Distance) hits :
  result_documents results = Ok hits →
  hit_text <$> hits = default [] (qr_documents results ≫= head)
  ∧ ∀ i h, hits !! i = Some h →
      ∃ ids, qr_ids results !! 0 = Some ids ∧ ids !! i = Some (hit_id h).
Proof.
  unfold result_documents.
  destruct (qr_documents results) as [[|texts rows]|]; simpl;
    try (intros [= <-]; split; [done|]; by intros i h ?).
  intros Hhits. pose proof (hits_from_texts results texts 0 hits Hhits) as Htexts.
  split; [done|]. intros i h Hi.
  destruct (qr_ids results !! 0) as [ids|] eqn:Hids.
  - exists ids. split; [done|].
    by apply (hits_from_ids results texts ids Hids 0 hits Hhits i h).
  - destruct texts as [|doc_text texts]; simpl in Hhits.
    + injection Hhits as <-. done.
    + unfold hit_of_result, index in Hhits. by rewrite Hids in Hhits.
Qed.

(** X20. A query result without the key [distances] is converted only when
    it holds at most one text: the default [[[None]]] has one entry, so the
    second Document raises IndexError. *)
Theorem missing_distances_raise_on_the_second_text
    (results : QueryResult Distance) text1 text2 texts rows :
  qr_distances results = None →
  qr_documents results = Some ((text1 :: text2 :: texts) :: rows) →
  result_documents results = Raise IndexError.
Proof.
  intros Hdist Hdocs. unfold result_documents. rewrite Hdocs. simpl.
  unfold hit_of_result, index. rewrite Hdist.
  destruct (qr_ids results !! 0) as [ids|]; [|done].
  destruct (ids !! 0) as [id0|]; [simpl|done].
  by destruct (ids !! 1) as [id1|].
Qed.
End IndexProperties.

(** * The properties on concrete sites *)

Module Examples.
Import Demo.

(** The scenario of the specification: two Documents, and the other host
    is never requested. *)
Example scenario :
  let r := crawl_and_scrape (H := platform docs_site) 3 [docs] true None
             (start docs_site) in
  r.1 = Ok (Some [{| text := "docs"; url := docs |}; {| text := "a"; url := docs_a |}])
  ∧ log r.2 = [{| why := Content; target := docs |};
               {| why := Links; target := docs |};
               {| why := Content; target := docs_a |};
               {| why := Links; target := docs_a |}].
Proof. vm_compute. done. Qed.

(** C1 on [load_documents_from_sources]: the sitemap lists one URL, the
    [--recursive] flag is set, and the crawl harvests the links of that
    page and fetches a URL the sitemap does not list. *)
Example recursive_flag_follows_links_despite_sitemap :
  let r := load_documents_from_sources (H := platform sitemap_site) 5
             (args_for ["https://example.com/"] true) (start sitemap_site) in
  (fetch_sitemap_urls (H := platform sitemap_site) "https://example.com/"
     (start sitemap_site)).1 = Ok [Some "https://example.com/a"]
  ∧ r.1 = Ok (Some [{| text := "a"; url := "https://example.com/a" |};
                    {| text := "b"; url := "https://example.com/b" |}])
  ∧ log r.2 = [{| why := Sitemap; target := "https://example.com/sitemap.xml" |};
               {| why := Content; target := "https://example.com/a" |};
               {| why := Links; target := "https://example.com/a" |};
               {| why := Content; target := "https://example.com/b" |};
               {| why := Links; target := "https://example.com/b" |}].
Proof. vm_compute. done. Qed.

(** The same site through [load_api_reference_documents]: the listed page
    only, and no link harvest. *)
Example api_reference_crawls_the_sitemap_only :
  let r := load_api_reference_documents (H := platform sitemap_site) 5
             "https://example.com/" (start sitemap_site) in
  r.1 = Ok (Some [{| text := "a"; url := "https://example.com/a" |}])
  ∧ log r.2 = [{| why := Sitemap; target := "https://example.com/sitemap.xml" |};
               {| why := Content; target := "https://example.com/a" |}].
Proof. vm_compute. done. Qed.

(** A sitemap with an empty [<loc>]: the crawl fetches the page listed
    before it and raises when it dequeues the [None];
    [load_documents_from_sources] raises with it, and
    [load_api_reference_documents] returns the empty list. *)
Example empty_loc_aborts_the_crawl :
  let r := load_documents_from_sources (H := platform empty_loc_site) 5
             (args_for ["https://example.com/"] false) (start empty_loc_site) in
  r.1 = Raise OtherException
  ∧ log r.2 = [{| why := Sitemap; target := "https://example.com/sitemap.xml" |};
               {| why := Content; target := "https://example.com/a" |}]
  ∧ (load_api_reference_documents (H := platform empty_loc_site) 5
       "https://example.com/" (start empty_loc_site)).1 = Ok (Some []).
Proof. vm_compute. done. Qed.

Lemma documents_in_scope_and_distinct_witness :
  ∃ c ps',
    crawl_run (H := platform docs_site) 3 [docs] true None (start docs_site)
    = (Ok c, ps')
    ∧ ∃ first base,
        head [docs] = Some first ∧ Python.netloc first = Some base
        ∧ (∀ d, d ∈ documents c → Python.netloc (url d) = Some base)
        ∧ NoDup (url <$> documents c)
        ∧ crawl_and_scrape (H := platform docs_site) 3 [docs] true None
            (start docs_site)
          = (Ok (match queue c with [] => Some (documents c) | _ => None end), ps').
Proof.
  destruct (crawl_run (H := platform docs_site) 3 [docs] true None (start docs_site))
    as [[c|e] ps'] eqn:Hrun.
  - exists c, ps'. split; [done|].
    exact (documents_in_scope_and_distinct (H := platform docs_site)
             3 [docs] true None (start docs_site) c ps' Hrun).
  - vm_compute in Hrun. discriminate Hrun.
Defined.

Lemma ignored_url_is_never_fetched_witness :
  ∃ trace,
    log (crawl_run (H := platform docs_site) 3
           [docs; "https://example.com/login"] true None (start docs_site)).2
    = [] ++ trace
    ∧ ∀ p, {| why := p; target := "https://example.com/login" |} ∉ trace.
Proof.
  apply (ignored_url_is_never_fetched (H := platform docs_site) 3
           [docs; "https://example.com/login"] true None (start docs_site)
           "https://example.com/login" "/login").
  - apply list_elem_of_In. simpl. by left.
  - reflexivity.
Defined.

Lemma translation_failure_witness :
  (translate_text (H := platform docs_site) "docs" "en"
     (requested (H := platform docs_site) Content docs () (start docs_site))).1
  = Ok "docs"
  ∧ (process_url (H := platform docs_site) docs (Some "en") (start docs_site)).1
    = Ok (Some {| text := "docs"; url := docs |}).
Proof.
  destruct (translation_failure_is_a_no_op (H := platform docs_site) "docs" "en"
              (requested (H := platform docs_site) Content docs () (start docs_site))
              I) as (Hsame & Hdoc & _).
  split; [exact Hsame|].
  exact (Hdoc docs (Some "en") (start docs_site)
           (Html "docs" ["/docs/a"; "https://other.com/x"])
           eq_refl eq_refl eq_refl).
Defined.

(** The other way a translation fails: the client is created and its call
    raises. *)
Example translation_call_failure :
  (process_url (H := platform sitemap_site) "https://example.com/a" (Some "en")
     (start sitemap_site)).1
  = Ok (Some {| text := "a"; url := "https://example.com/a" |})
  ∧ translate_client
      (process_url (H := platform sitemap_site) "https://example.com/a" (Some "en")
         (start sitemap_site)).2 = Some ().
Proof. vm_compute. done. Qed.

(** The requests of a site of answers are [requests.get] followed by
    [raise_for_status]. *)
Lemma status_site_steps table u w :
  requests_get (Platform := platform (status_site table)) u w
  = checked_get (status_get table) u w.
Proof.
  destruct w. simpl. unfold checked_get, status_get.
  by destruct (answer table u).
Qed.



(** C5 as the specification states it fails: a URL on which [urlparse] raises
    ValueError is not skipped, it aborts the crawl with that error, and the
    page queued behind it is never fetched. *)
Lemma unparseable_url_aborts_the_crawl :
  Python.netloc "http://[" = None
  ∧ ignored "http://[" = false
  ∧ (crawl_and_scrape (H := platform docs_site) 5 [docs; "http://["; docs_a]
       false None (start docs_site)).1 = Raise ValueError
  ∧ (crawl_and_scrape (H := platform docs_site) 5 [docs; docs_a]
       false None (start docs_site)).1
    = Ok (Some [{| text := "docs"; url := docs |}; {| text := "a"; url := docs_a |}]).
Proof. vm_compute. done. Qed.

Lemma foreign_url_skipped_unparseable_url_raises_witness :
  (∀ netloc, Python.netloc "http://[" = Some netloc → netloc ≠ "example.com" →
     loop_body (H := platform docs_site) "example.com" false None
       {| visited := ∅; documents := []; queue := ["http://["; docs] |}
       (start docs_site)
     = (Ok {| visited := ∅; documents := []; queue := [docs] |}, start docs_site))
  ∧ (Python.netloc "http://[" = None →
     ∀ fuel, crawl_loop (H := platform docs_site) (S fuel) "example.com" false None
               {| visited := ∅; documents := []; queue := ["http://["; docs] |}
               (start docs_site)
             = (Raise ValueError, start docs_site)).
Proof.
  exact (foreign_url_skipped_unparseable_url_raises (H := platform docs_site)
           "example.com" false None
           {| visited := ∅; documents := []; queue := ["http://["; docs] |}
           (start docs_site) "http://[" [docs]
           eq_refl (not_elem_of_empty _) eq_refl).
Defined.



Lemma serve_static table u :
  serve table u
  = match (match serve table u with Ok b => Some b | Raise _ => None end) with
    | Some content => Ok content
    | None => Raise RequestException
    end.
Proof.
  induction table as [|[v b] table IH]; simpl; [done|]. by case_bool_decide.
Qed.

Lemma docs_domain_cases (P : string → Prop) :
  P docs → P docs_a → P other_x → ∀ u, u ∈ docs_domain → P u.
Proof.
  intros H1 H2 H3 u Hu. unfold docs_domain in Hu.
  repeat (apply elem_of_cons in Hu as [->|Hu]); try done.
  by apply elem_of_nil in Hu.
Qed.

Lemma docs_links_in_domain u content :
  true = true → u ∈ docs_domain →
  in_scope (H := platform docs_site) "example.com" u →
  docs_pages u = Some content →
  is_Some (absolute_links (H := platform docs_site) u content)
  ∧ ∀ v, v ∈ links_of (H := platform docs_site) docs_pages u → v ∈ docs_domain.
Proof.
  intros _ Hu _ Hsite. unfold docs_domain in Hu.
  repeat (apply elem_of_cons in Hu as [->|Hu]); [..|by apply elem_of_nil in Hu];
    injection Hsite as <-; (split; [by eexists|]);
    intros v Hv; vm_compute in Hv;
    repeat (apply elem_of_cons in Hv as [->|Hv]);
    try (by apply elem_of_nil in Hv);
    apply list_elem_of_In; simpl; tauto.
Qed.

Lemma docs_reachable_in_domain v :
  reachable (H := platform docs_site) docs_pages [docs] "example.com" true v →
  v ∈ docs_domain.
Proof.
  induction 1 as [v Hv|u v _ _ IH Hscope Hv].
  - apply list_elem_of_singleton in Hv as ->. by left.
  - destruct (docs_pages u) as [content|] eqn:Hsite.
    + by eapply (docs_links_in_domain u content).
    + unfold links_of in Hv. rewrite Hsite in Hv. by apply elem_of_nil in Hv.
Qed.

Lemma docs_pages_listed v :
  v ∈ [docs; docs_a]
  ↔ reachable (H := platform docs_site) docs_pages [docs] "example.com" true v
    ∧ page (H := platform docs_site) docs_pages "example.com" v.
Proof.
  assert (reachable (H := platform docs_site) docs_pages [docs] "example.com" true docs)
    as Hdocs by (apply reach_seed; by left).
  split.
  - intros Hv. repeat (apply elem_of_cons in Hv as [->|Hv]).
    + split; [done|]. split; [done|by eexists].
    + split; [|split; [done|by eexists]].
      apply (reach_link (H := platform docs_site) _ _ _ _ docs); try done.
      apply list_elem_of_In. simpl. tauto.
    + by apply elem_of_nil in Hv.
  - intros [Hreach [[_ Hnetloc] _]]. apply docs_reachable_in_domain in Hreach.
    revert v Hreach Hnetloc.
    apply (docs_domain_cases
             (λ v, Python.netloc v = Some "example.com" → v ∈ [docs; docs_a]));
      intros Hnetloc.
    + by left.
    + right. by left.
    + vm_compute in Hnetloc. discriminate Hnetloc.
Qed.


End Examples.

(** * The further properties on concrete inputs *)

Module MoreExamples.
Import Demo DemoStore.

Lemma documents_in_fetch_order_witness :
  ∃ c ps',
    crawl_run (H := platform docs_site) 3 [docs] true None (start docs_site)
    = (Ok c, ps')
    ∧ ∃ trace, log ps' = log (start docs_site) ++ trace
               ∧ url <$> documents c `sublist_of` fetches Content trace.
Proof.
  destruct (crawl_run (H := platform docs_site) 3 [docs] true None (start docs_site))
    as [[c|e] ps'] eqn:Hrun.
  - exists c, ps'. split; [done|].
    exact (documents_in_fetch_order (H := platform docs_site)
             3 [docs] true None (start docs_site) c ps' Hrun).
  - vm_compute in Hrun. discriminate Hrun.
Defined.

Lemma flat_crawl_ends_within_its_input_witness :
  ∃ c ps',
    crawl_run (H := platform docs_site) 3 [docs_a; missing; docs] false None
      (start docs_site) = (Ok c, ps')
    ∧ queue c = []
    ∧ url <$> documents c `sublist_of` [docs_a; missing; docs].
Proof.
  destruct (crawl_run (H := platform docs_site) 3 [docs_a; missing; docs] false None
              (start docs_site)) as [[c|e] ps'] eqn:Hrun.
  - exists c, ps'. split; [done|].
    destruct (flat_crawl_ends_within_its_input (H := platform docs_site)
                3 [docs_a; missing; docs] None (start docs_site) c ps' Hrun (le_n 3))
      as (Hq & _ & Hsub).
    by split.
  - vm_compute in Hrun. discriminate Hrun.
Defined.

Lemma requests_stay_on_the_base_domain_witness :
  ∃ trace,
    log (crawl_run (H := platform docs_site) 3 [docs; other_x] true None
           (start docs_site)).2 = log (start docs_site) ++ trace
    ∧ ∀ r, r ∈ trace → Python.netloc (target r) = Python.netloc docs.
Proof.
  exact (requests_stay_on_the_base_domain (H := platform docs_site) 3
           [docs; other_x] true None (start docs_site) docs eq_refl).
Defined.

Lemma translate_client_created_once_witness :
  ∃ ps1 ps2,
    translate_text (H := platform sitemap_site) "a" "en" (start sitemap_site)
    = (Ok "a", ps1)
    ∧ translate_client ps1 = Some ()
    ∧ translate_text (H := platform sitemap_site) "b" "en" ps1 = (Ok "b", ps2)
    ∧ translate_client ps2 = Some ().
Proof.
  destruct (translate_client_created_once (H := platform sitemap_site)
              "a" "en" "b" "en" (start sitemap_site) () eq_refl eq_refl)
    as (ps1 & ps2 & H1 & H2 & _ & H3 & H4 & _).
  exists ps1, ps2. split; [exact H1|]. split; [exact H2|].
  split; [exact H3|exact H4].
Defined.

Lemma failed_client_creation_is_retried_witness :
  ∃ ps1,
    translate_text (H := platform docs_site) "docs" "en" (start docs_site)
    = (Ok "docs", ps1)
    ∧ translate_client ps1 = None.
Proof.
  destruct (failed_client_creation_is_retried (H := platform docs_site)
              "docs" "en" (start docs_site) OtherException eq_refl eq_refl)
    as (ps1 & H1 & H2 & _).
  exists ps1. by split.
Defined.

Lemma requests_of_load_documents_from_sources_witness :
  ∃ trace,
    log (load_documents_from_sources (H := platform docs_site) 3
           (args_for [docs] true) (start docs_site)).2
    = log (start docs_site)
      ++ {| why := Sitemap; target := "https://example.com/sitemap.xml" |} :: trace
    ∧ NoDup (fetches Content trace)
    ∧ NoDup (fetches Links trace)
    ∧ fetches Sitemap trace = []
    ∧ ∀ r, r ∈ trace → ignored (target r) = false.
Proof.
  exact (requests_of_load_documents_from_sources (H := platform docs_site) 3
           (args_for [docs] true) docs [] (start docs_site)
           "https://example.com/sitemap.xml" eq_refl eq_refl).
Defined.

Lemma only_the_first_pdf_is_read_witness :
  load_documents_from_sources (H := platform docs_site) 3
    {| arg_urls := [docs]; arg_pdfs := ["a.pdf"; "b.pdf"];
       arg_recursive := false; arg_translate_to := None |} (start docs_site)
  = load_documents_from_sources (H := platform docs_site) 3
      {| arg_urls := [docs]; arg_pdfs := ["a.pdf"];
         arg_recursive := false; arg_translate_to := None |} (start docs_site).
Proof.
  exact (proj1 (only_the_first_pdf_is_read (H := platform docs_site) 3
                  {| arg_urls := [docs]; arg_pdfs := ["a.pdf"; "b.pdf"];
                     arg_recursive := false; arg_translate_to := None |}
                  "a.pdf" ["b.pdf"] (start docs_site) eq_refl)).
Defined.

Lemma build_and_save_index_other_collections_witness :
  chroma (build_and_save_index (H0 := backend docs_site true) "Alma" alma_new true
            (store docs_site true with_alma)).2 !! "core_knowledge"
  = with_alma !! "core_knowledge".
Proof.
  apply (build_and_save_index_other_collections (H0 := backend docs_site true)
           "Alma" alma_new true (store docs_site true with_alma) "core_knowledge").
  intros Heq. vm_compute in Heq. discriminate Heq.
Defined.

Lemma overwrite_of_a_missing_collection_raises_witness :
  ∃ e, (build_and_save_index (H0 := backend docs_site true) "Alma" alma_new true
          (store docs_site true ∅)).1 = Raise e
       ∧ chroma (build_and_save_index (H0 := backend docs_site true) "Alma" alma_new
                   true (store docs_site true ∅)).2 = ∅.
Proof.
  exact (overwrite_of_a_missing_collection_raises (H0 := backend docs_site true)
           "Alma" alma_new (store docs_site true ∅) eq_refl).
Defined.

Lemma build_and_save_index_result_witness :
  (get_collection (H0 := backend docs_site true) (collection_name (H0 := backend docs_site true) "ALMA")
     (build_and_save_index (H0 := backend docs_site true) "alma" alma_new false
        (store docs_site true with_alma)).2).1
  = Ok (alma_old ++ alma_new).
Proof.
  destruct (build_and_save_index_result (H0 := backend docs_site true)
              "alma" alma_new false (store docs_site true with_alma) "ALMA"
              eq_refl eq_refl) as [w Hw].
  rewrite Hw. reflexivity.
Defined.

Lemma overwrite_deletes_before_it_can_rebuild_witness :
  (build_and_save_index (H0 := backend docs_site false) "alma" alma_new true
     (store docs_site false with_alma)).1 = Raise OtherException
  ∧ chroma (build_and_save_index (H0 := backend docs_site false) "alma" alma_new true
              (store docs_site false with_alma)).2 !! collection_name (H0 := backend docs_site false) "alma"
    = Some [].
Proof.
  exact (overwrite_deletes_before_it_can_rebuild (H0 := backend docs_site false)
           "alma" alma_new (store docs_site false with_alma) alma_old OtherException
           eq_refl eq_refl eq_refl eq_refl).
Defined.

Lemma build_core_index_result_witness :
  (get_collection (H0 := backend docs_site true) "core_knowledge"
     (build_core_index (H0 := backend docs_site true) alma_new
        (store docs_site true {[ "core_knowledge" := alma_old ]})).2).1
  = Ok alma_new.
Proof.
  destruct (build_core_index_result (H0 := backend docs_site true) alma_new
              (store docs_site true {[ "core_knowledge" := alma_old ]}))
    as [[w Hw] _].
  - discriminate.
  - reflexivity.
  - rewrite Hw. reflexivity.
Defined.

Lemma result_documents_follow_the_result_witness :
  ∃ hits,
    result_documents (H0 := backend docs_site true) two_hits = Ok hits
    ∧ hit_text <$> hits = ["first"; "second"].
Proof.
  destruct (result_documents (H0 := backend docs_site true) two_hits)
    as [hits|e] eqn:Hhits.
  - exists hits. split; [done|].
    exact (proj1 (result_documents_follow_the_result (H0 := backend docs_site true)
                    two_hits hits Hhits)).
  - vm_compute in Hhits. discriminate Hhits.
Defined.

Lemma missing_distances_raise_on_the_second_text_witness :
  result_documents (H0 := backend docs_site true) two_texts = Raise IndexError.
Proof.
  exact (missing_distances_raise_on_the_second_text (H0 := backend docs_site true)
           two_texts "first" "second" [] [] eq_refl eq_refl).
Defined.

(** The collection that was built is the one [load_data] reads: with one
    entry the query of the demonstration backend gives one Document, whose
    missing distance is [None]. *)
Example build_then_load_data :
  (load_data (H0 := backend docs_site true) (collection_name (H0 := backend docs_site true) "Alma") "question" 3
     (build_and_save_index (H0 := backend docs_site true) "alma" alma_new false
        (store docs_site true ∅)).2).1
  = Ok [{| hit_text := "new"; hit_id := "https://example.com/new";
           hit_distance := None |}].
Proof. vm_compute. done. Qed.
End MoreExamples.
